(** * SUDOKOO: the puzzle constraint engine

    A shallow embedding of [js/sudoku.js] (class [SudokuEngine]),
    [js/generator.js] (class [SudokuGenerator]), [js/puzzles.js] (class
    [PuzzleManager]) and the validation functions of [lambda/index.js],
    followed by the properties of the engine, the solver and the generator.

    Conventions of the embedding.
    - A grid is a JavaScript array of nine arrays of nine numbers; it is a
      [list (list nat)] read with stdpp's total lookup and written with
      stdpp's insert.  Every loop of the source indexes with 0..8 only, so on
      a 9x9 grid no read or write is out of range; the well-formedness
      predicate [wf_grid] records the shape where a statement depends on it.
    - A pencil-mark cell is a JavaScript [Set] of numbers: a [gset nat].
    - Methods that mutate [this] take the engine and return the new engine
      next to their JavaScript return value.
    - [Math.random] is an oracle: a stream of naturals with a cursor;
      [Math.floor(Math.random() * n)] is the next draw modulo [n].
    - The two recursive backtracking searches take a recursion budget; the
      entry points use [searchDepth] = 82, one more than the number of cells,
      which is proved sufficient for every 9x9 grid. *)

From stdpp Require Import base list gmap strings pretty sorting.

Open Scope string_scope.
Open Scope list_scope.
Open Scope nat_scope.

(** ** Grids *)

Abbreviation Grid := (list (list nat)).
Abbreviation Marks := (list (list (gset nat))).

(** [a[row][col]] *)
Definition at2 {A} `{Inhabited A} (a : list (list A)) (row col : nat) : A :=
  (a !!! row) !!! col.

(** [a[row][col] = v] *)
Definition set2 {A} `{Inhabited A} (a : list (list A)) (row col : nat) (v : A)
  : list (list A) :=
  <[row := <[col := v]> (a !!! row)]> a.

Definition cell (g : Grid) (row col : nat) : nat := at2 g row col.
Definition setCell (g : Grid) (row col v : nat) : Grid := set2 g row col v.

Definition wf2 {A} (a : list (list A)) : Prop :=
  length a = 9 ∧ Forall (λ r, length r = 9) a.

Definition wf_grid (g : Grid) : Prop := wf2 g.

(** [Array(9).fill().map(() => Array(9).fill(0))] *)
Definition emptyGrid : Grid := replicate 9 (replicate 9 0).

(** [grid.map(row => [...row])] *)
Definition deepCopy (g : Grid) : Grid := (λ row, row) <$> g.

(** The positions visited by [for row in 0..8 { for col in 0..8 {..} }]. *)
Definition allPositions : list (nat * nat) :=
  row ← seq 0 9; (λ col, (row, col)) <$> seq 0 9.

(** The cells of the 3x3 box of [(row, col)], in the order of the box loops. *)
Definition boxPositions (row col : nat) : list (nat * nat) :=
  let boxRow := row / 3 * 3 in
  let boxCol := col / 3 * 3 in
  i ← seq boxRow 3; (λ j, (i, j)) <$> seq boxCol 3.

(** ** The random source *)

Record Rng := { oracle : nat → nat; cursor : nat }.

(** [Math.floor(Math.random() * n)] *)
Definition randomBelow (n : nat) (rng : Rng) : nat * Rng :=
  (oracle rng (cursor rng) `mod` n,
   {| oracle := oracle rng; cursor := S (cursor rng) |}).

(** ** js/sudoku.js: class SudokuEngine *)

Module SudokuEngine.

Record Engine := {
  grid : Grid;
  solution : option Grid;          (* [null] is [None] *)
  initialGrid : Grid;
  pencilMarks : Marks
}.

Definition with_grid (e : Engine) (g : Grid) : Engine :=
  {| grid := g; solution := solution e; initialGrid := initialGrid e;
     pencilMarks := pencilMarks e |}.

Definition with_marks (e : Engine) (pm : Marks) : Engine :=
  {| grid := grid e; solution := solution e; initialGrid := initialGrid e;
     pencilMarks := pm |}.

Definition marks (e : Engine) (row col : nat) : gset nat :=
  at2 (pencilMarks e) row col.

(** [constructor()] *)
Definition new : Engine :=
  {| grid := emptyGrid; solution := Some emptyGrid; initialGrid := emptyGrid;
     pencilMarks := replicate 9 (replicate 9 ∅) |}.

(** [isValidMove(row, col, num)] *)
Definition isValidMove (e : Engine) (row col num : nat) : bool :=
  if negb (cell (initialGrid e) row col =? 0) then false
  else if existsb (λ x, negb (x =? col) && (cell (grid e) row x =? num))
            (seq 0 9) then false
  else if existsb (λ x, negb (x =? row) && (cell (grid e) x col =? num))
            (seq 0 9) then false
  else if existsb (λ '(i, j), (negb (i =? row) || negb (j =? col))
                              && (cell (grid e) i j =? num))
            (boxPositions row col) then false
  else true.

(** [removePencilMark(row, col, num)]; always returns [true]. *)
Definition removePencilMark (e : Engine) (row col num : nat) : Engine :=
  with_marks e (set2 (pencilMarks e) row col (marks e row col ∖ {[num]})).

(** [clearPencilMarksForCell(row, col)] *)
Definition clearPencilMarksForCell (e : Engine) (row col : nat) : Engine :=
  with_marks e (set2 (pencilMarks e) row col ∅).

(** [clearPencilMarks()] *)
Definition clearPencilMarks (e : Engine) : Engine :=
  foldl (λ e '(row, col), clearPencilMarksForCell e row col) e allPositions.

(** [updatePencilMarks(row, col, num)] *)
Definition updatePencilMarks (e : Engine) (row col num : nat) : Engine :=
  let e1 := foldl (λ e x, removePencilMark e row x num) e (seq 0 9) in
  let e2 := foldl (λ e x, removePencilMark e x col num) e1 (seq 0 9) in
  foldl (λ e '(i, j), removePencilMark e i j num) e2 (boxPositions row col).

(** The object returned by [placeNumber]. *)
Record MoveResult := { success : bool; error : option string }.

(** [placeNumber(row, col, num)] *)
Definition placeNumber (e : Engine) (row col num : nat) : MoveResult * Engine :=
  if negb (cell (initialGrid e) row col =? 0) then
    ({| success := false; error := Some "Cannot modify given numbers" |}, e)
  else if num =? 0 then
    ({| success := true; error := None |}, with_grid e (setCell (grid e) row col 0))
  else if isValidMove e row col num then
    let e1 := with_grid e (setCell (grid e) row col num) in
    let e2 := clearPencilMarksForCell e1 row col in
    let e3 := updatePencilMarks e2 row col num in
    ({| success := true; error := None |}, e3)
  else
    ({| success := false; error := Some "Invalid move" |}, e).

(** [getConflictingCells(row, col, num)] *)
Definition getConflictingCells (e : Engine) (row col num : nat)
  : list (nat * nat) :=
  if (cell (grid e) row col =? 0) || negb (cell (grid e) row col =? num) then []
  else
    ((λ x, (row, x)) <$>
       filter (λ x, x ≠ col ∧ cell (grid e) row x = num) (seq 0 9))
    ++ ((λ x, (x, col)) <$>
       filter (λ x, x ≠ row ∧ cell (grid e) x col = num) (seq 0 9))
    ++ filter (λ p, (p.1 ≠ row ∨ p.2 ≠ col) ∧ cell (grid e) p.1 p.2 = num)
         (boxPositions row col).

(** One iteration of the loop body of [isValidSolution]: the cell is cleared,
    checked with [isValidMove], and written back. *)
Definition revalidateCell (e : Engine) (p : nat * nat) : bool * Engine :=
  let '(row, col) := p in
  let num := cell (grid e) row col in
  if negb (num =? 0) then
    let e1 := with_grid e (setCell (grid e) row col 0) in
    let isValid := isValidMove e1 row col num in
    let e2 := with_grid e1 (setCell (grid e1) row col num) in
    (isValid, e2)
  else (true, e).

Fixpoint revalidateFrom (ps : list (nat * nat)) (e : Engine) : bool * Engine :=
  match ps with
  | [] => (true, e)
  | p :: ps' =>
      let '(isValid, e') := revalidateCell e p in
      if isValid then revalidateFrom ps' e' else (false, e')
  end.

(** [isValidSolution()] *)
Definition isValidSolution (e : Engine) : bool * Engine :=
  revalidateFrom allPositions e.

(** [isSolved()] *)
Definition isSolved (e : Engine) : bool * Engine :=
  if existsb (λ '(row, col), cell (grid e) row col =? 0) allPositions
  then (false, e)
  else isValidSolution e.

(** [getPossibleValues(row, col)] *)
Definition getPossibleValues (e : Engine) (row col : nat) : list nat :=
  if negb (cell (grid e) row col =? 0) then []
  else filter (λ num, isValidMove e row col num = true) (seq 1 9).

(** The object returned by [getHint]. *)
Record Hint := { hrow : nat; hcol : nat; value : nat; reason : string }.

(** A JavaScript call either returns or throws a [TypeError] (reading a
    property of [null]). *)
Inductive js (A : Type) : Type :=
| Return (a : A)
| TypeError.
Arguments Return {A} a.
Arguments TypeError {A}.

(** [getHint()].  The random source is read only on the fallback path. *)
Definition getHint (e : Engine) (rng : Rng) : js (option Hint) * Rng :=
  let emptyCells :=
    filter (λ p, cell (grid e) p.1 p.2 = 0) allPositions in
  if length emptyCells =? 0 then (Return None, rng)
  else
    match find (λ p, length (getPossibleValues e p.1 p.2) =? 1) emptyCells with
    | Some p =>
        (Return (Some {| hrow := p.1; hcol := p.2;
                         value := getPossibleValues e p.1 p.2 !!! 0;
                         reason := "Only one possible value" |}), rng)
    | None =>
        let '(k, rng') := randomBelow (length emptyCells) rng in
        let randomCell := emptyCells !!! k in
        match solution e with
        | Some sol =>
            (Return (Some {| hrow := randomCell.1; hcol := randomCell.2;
                             value := cell sol randomCell.1 randomCell.2;
                             reason := "Random hint" |}), rng')
        | None => (TypeError, rng')
        end
    end.

(** [addPencilMark(row, col, num)] *)
Definition addPencilMark (e : Engine) (row col num : nat) : bool * Engine :=
  if cell (grid e) row col =? 0 then
    (true, with_marks e (set2 (pencilMarks e) row col (marks e row col ∪ {[num]})))
  else (false, e).

(** [togglePencilMark(row, col, num)] *)
Definition togglePencilMark (e : Engine) (row col num : nat) : bool * Engine :=
  if decide (num ∈ marks e row col) then
    (false, removePencilMark e row col num)
  else
    (true, (addPencilMark e row col num).2).

(** [isValidMoveForGrid(grid, row, col, num)] *)
Definition isValidMoveForGrid (g : Grid) (row col num : nat) : bool :=
  if existsb (λ x, cell g row x =? num) (seq 0 9) then false
  else if existsb (λ x, cell g x col =? num) (seq 0 9) then false
  else if existsb (λ '(i, j), cell g i j =? num) (boxPositions row col)
  then false
  else true.

(** The first position, in row-major order, holding 0. *)
Definition firstEmpty (g : Grid) : option (nat * nat) :=
  find (λ '(row, col), cell g row col =? 0) allPositions.

(** The loop [for (num = 1; num <= 9; num++) {..}] of [solveRecursive] at the
    empty cell [(row, col)]; [rec] is the recursive call. *)
Fixpoint tryAscending (rec : Grid → option (bool * Grid))
    (row col : nat) (nums : list nat) (g : Grid) : option (bool * Grid) :=
  match nums with
  | [] => Some (false, g)
  | num :: rest =>
      if isValidMoveForGrid g row col num then
        match rec (setCell g row col num) with
        | None => None
        | Some (true, g') => Some (true, g')
        | Some (false, g') => tryAscending rec row col rest (setCell g' row col 0)
        end
      else tryAscending rec row col rest g
  end.

(** [solveRecursive(grid)]; [None] when the recursion budget runs out. *)
Fixpoint solveRecursive (fuel : nat) (g : Grid) : option (bool * Grid) :=
  match fuel with
  | 0 => None
  | S fuel' =>
      match firstEmpty g with
      | None => Some (true, g)
      | Some (row, col) =>
          tryAscending (solveRecursive fuel') row col (seq 1 9) g
      end
  end.

Definition searchDepth : nat := 82.

(** [solvePuzzle(grid)]: the outer [option] is the recursion budget, the
    inner one is JavaScript's [null]. *)
Definition solvePuzzle (g : Grid) : option (option Grid) :=
  match solveRecursive searchDepth (deepCopy g) with
  | None => None
  | Some (true, sol) => Some (Some sol)
  | Some (false, _) => Some None
  end.

(** [init(puzzle, solution = null)] *)
Definition init (e : Engine) (puzzle : Grid) (sol : option Grid)
  : option (bool * Engine) :=
  let solved :=
    match sol with
    | Some s => Some (Some (deepCopy s))
    | None => solvePuzzle (deepCopy puzzle)
    end in
  match solved with
  | None => None
  | Some s =>
      Some (true,
            clearPencilMarks
              {| grid := deepCopy puzzle; solution := s;
                 initialGrid := deepCopy puzzle;
                 pencilMarks := pencilMarks e |})
  end.

(** [reset()] *)
Definition reset (e : Engine) : Engine :=
  clearPencilMarks (with_grid e (deepCopy (initialGrid e))).

(** [getHighlightedCells(row, col)] *)
Definition getHighlightedCells (e : Engine) (row col : nat)
  : list (nat * nat) :=
  let num := cell (grid e) row col in
  if num =? 0 then []
  else filter (λ p, cell (grid e) p.1 p.2 = num) allPositions.

(** [getProgress().filled]; [total] is the constant 81, and [percentage]
    ([Math.round] of a floating-point quotient) is not modelled. *)
Definition getProgressFilled (e : Engine) : nat :=
  length (filter (λ p, cell (grid e) p.1 p.2 ≠ 0) allPositions).

(** [getPencilMarks(row, col)] is [Array.from(set).sort()]; the default
    JavaScript sort compares the decimal strings of the numbers. *)
Definition decimalLe (a b : nat) : Prop :=
  String.leb (pretty a) (pretty b) = true.

#[global] Instance decimalLe_dec a b : Decision (decimalLe a b).
Proof. unfold decimalLe. apply _. Defined.

Definition getPencilMarks (e : Engine) (row col : nat) : list nat :=
  merge_sort decimalLe (elements (marks e row col)).

(** The loop body of [autoFillPencilMarks] at one cell. *)
Definition autoFillCell (e : Engine) (p : nat * nat) : Engine :=
  let '(row, col) := p in
  if cell (grid e) row col =? 0 then
    let e1 := clearPencilMarksForCell e row col in
    let possible := getPossibleValues e1 row col in
    foldl (λ e num,
             with_marks e
               (set2 (pencilMarks e) row col (marks e row col ∪ {[num]})))
      e1 possible
  else e.

(** [autoFillPencilMarks()] *)
Definition autoFillPencilMarks (e : Engine) : Engine :=
  foldl autoFillCell e allPositions.

(** [isCorrectMove(row, col, num)]: [this.solution && ..] is [null] when no
    solution is stored. *)
Definition isCorrectMove (e : Engine) (row col num : nat) : option bool :=
  match solution e with
  | None => None
  | Some sol => Some (cell sol row col =? num)
  end.

(** [isGivenCell(row, col)] *)
Definition isGivenCell (e : Engine) (row col : nat) : bool :=
  negb (cell (initialGrid e) row col =? 0).

(** [getTotalPencilMarks()] *)
Definition getTotalPencilMarks (e : Engine) : nat :=
  foldl (λ total '(row, col), total + size (marks e row col)) 0 allPositions.

(** The object returned by [getStats], without the rounded percentage. *)
Record Stats := {
  progressFilled : nat;
  statEmptyCells : nat;
  userMoves : nat;
  totalPencilMarks : nat;
  isValid : bool
}.

(** [getStats()] *)
Definition getStats (e : Engine) : Stats * Engine :=
  let '(valid, e') := isValidSolution e in
  ({| progressFilled := getProgressFilled e;
      statEmptyCells :=
        length (filter (λ p, cell (grid e) p.1 p.2 = 0) allPositions);
      userMoves :=
        length (filter (λ p, cell (grid e) p.1 p.2 ≠ 0
                             ∧ isGivenCell e p.1 p.2 = false) allPositions);
      totalPencilMarks := getTotalPencilMarks e;
      isValid := valid |}, e').

End SudokuEngine.

(** ** js/generator.js: class SudokuGenerator *)

Module SudokuGenerator.

(** [[array[i], array[j]] = [array[j], array[i]]] *)
Definition swap {A} (array : list A) (i j : nat) : list A :=
  match array !! i, array !! j with
  | Some ai, Some aj => <[j := ai]> (<[i := aj]> array)
  | _, _ => array
  end.

(** The loop [for (i = array.length - 1; i > 0; i--)] of [shuffleArray],
    entered with [i]. *)
Fixpoint shuffleFrom {A} (i : nat) (array : list A) (rng : Rng)
  : list A * Rng :=
  match i with
  | 0 => (array, rng)
  | S i' =>
      let '(j, rng') := randomBelow (i + 1) rng in
      shuffleFrom i' (swap array i j) rng'
  end.

(** [shuffleArray(array)] *)
Definition shuffleArray {A} (array : list A) (rng : Rng) : list A * Rng :=
  shuffleFrom (length array - 1) array rng.

(** [isValidPlacement(grid, row, col, num)] *)
Definition isValidPlacement (g : Grid) (row col num : nat) : bool :=
  if existsb (λ x, cell g row x =? num) (seq 0 9) then false
  else if existsb (λ x, cell g x col =? num) (seq 0 9) then false
  else if existsb (λ '(i, j), cell g i j =? num) (boxPositions row col)
  then false
  else true.

(** The first position, in row-major order, holding 0. *)
Definition firstEmpty (g : Grid) : option (nat * nat) :=
  find (λ '(row, col), cell g row col =? 0) allPositions.

(** The loop [for (const num of numbers) {..}] of [fillGrid] at the empty cell
    [(row, col)]; [rec] is the recursive call. *)
Fixpoint tryNumbers (rec : Grid → Rng → option (bool * Grid * Rng))
    (row col : nat) (numbers : list nat) (g : Grid) (rng : Rng)
  : option (bool * Grid * Rng) :=
  match numbers with
  | [] => Some (false, g, rng)
  | num :: rest =>
      if isValidPlacement g row col num then
        match rec (setCell g row col num) rng with
        | None => None
        | Some (true, g', rng') => Some (true, g', rng')
        | Some (false, g', rng') =>
            tryNumbers rec row col rest (setCell g' row col 0) rng'
        end
      else tryNumbers rec row col rest g rng
  end.

(** [fillGrid(grid)]; [None] when the recursion budget runs out. *)
Fixpoint fillGrid (fuel : nat) (g : Grid) (rng : Rng)
  : option (bool * Grid * Rng) :=
  match fuel with
  | 0 => None
  | S fuel' =>
      match firstEmpty g with
      | None => Some (true, g, rng)
      | Some (row, col) =>
          let '(numbers, rng1) := shuffleArray (seq 1 9) rng in
          tryNumbers (fillGrid fuel') row col numbers g rng1
      end
  end.

Definition searchDepth : nat := 82.

(** [generateCompletePuzzle()]: the boolean of [fillGrid] is dropped by the
    source and the grid returned; it is kept here next to the grid. *)
Definition generateCompletePuzzle (rng : Rng) : option (bool * Grid * Rng) :=
  fillGrid searchDepth emptyGrid rng.

(** [hasUniqueSolution(puzzle)] *)
Definition countEmpty (puzzle : Grid) : nat :=
  length (filter (λ p, cell puzzle p.1 p.2 = 0) allPositions).

Definition hasUniqueSolution (puzzle : Grid) : bool :=
  countEmpty puzzle <=? 64.

(** [getPuzzleStats(puzzle).filledCells] *)
Definition filledCells (puzzle : Grid) : nat :=
  length (filter (λ p, cell puzzle p.1 p.2 ≠ 0) allPositions).

(** The names [difficulty_settings[difficulty]] finds: the four own keys and
    the properties every object inherits from [Object.prototype]. *)
Definition ownSettings : list string := ["easy"; "medium"; "hard"; "expert"].
Definition inheritedProperties : list string :=
  ["constructor"; "toString"; "toLocaleString"; "valueOf"; "hasOwnProperty";
   "isPrototypeOf"; "propertyIsEnumerable"; "__proto__"; "__defineGetter__";
   "__defineSetter__"; "__lookupGetter__"; "__lookupSetter__"].

Definition hasSettings (difficulty : string) : bool :=
  bool_decide (difficulty ∈ (ownSettings ++ inheritedProperties)).

(** The body of the removal loop of [createPuzzle], after the [break] test:
    the state is the puzzle and [currentClues]. *)
Definition removeStep (st : Grid * nat) (pos : nat * nat) : Grid * nat :=
  let '(puzzle, currentClues) := st in
  let '(row, col) := pos in
  let backup := cell puzzle row col in
  let puzzle1 := setCell puzzle row col 0 in
  if hasUniqueSolution puzzle1 then (puzzle1, currentClues - 1)
  else (setCell puzzle1 row col backup, currentClues).

(** [for (const pos of positions) { if (currentClues <= targetClues) break; ..}] *)
Fixpoint removeLoop (positions : list (nat * nat)) (targetClues : nat)
    (st : Grid * nat) : Grid * nat :=
  match positions with
  | [] => st
  | pos :: rest =>
      if st.2 <=? targetClues then st
      else removeLoop rest targetClues (removeStep st pos)
  end.

(** [targetClues], the random draw included. *)
Definition targetClues (difficulty : string) (rng : Rng) : nat * Rng :=
  let difficulty := if hasSettings difficulty then difficulty else "medium" in
  let '(k, rng') := randomBelow 6 rng in
  if String.eqb difficulty "easy" then (k + 45, rng')
  else if String.eqb difficulty "medium" then (k + 35, rng')
  else if String.eqb difficulty "hard" then (k + 25, rng')
  else (k + 17, rng').

(** [createPuzzle(solution, difficulty)] *)
Definition createPuzzle (sol : Grid) (difficulty : string) (rng : Rng)
  : Grid * Rng :=
  let puzzle := deepCopy sol in
  let '(target, rng1) := targetClues difficulty rng in
  let '(positions, rng2) := shuffleArray allPositions rng1 in
  ((removeLoop positions target (puzzle, 81)).1, rng2).

(** The object returned by [generateFreshPuzzle], without the fields built
    from the clock and from template strings ([id], [name],
    [generationTime]). *)
Record FreshPuzzle := {
  puzzle : Grid;
  freshSolution : Grid;
  freshDifficulty : string;
  generated : bool
}.

(** [generateFreshPuzzle(difficulty)] *)
Definition generateFreshPuzzle (difficulty : string) (rng : Rng)
  : option (FreshPuzzle * Rng) :=
  match generateCompletePuzzle rng with
  | None => None
  | Some (_, sol, rng1) =>
      let '(puz, rng2) := createPuzzle sol difficulty rng1 in
      Some ({| puzzle := puz; freshSolution := sol;
               freshDifficulty := difficulty; generated := true |}, rng2)
  end.

(** [estimateDifficulty(clues)] *)
Definition estimateDifficulty (clues : nat) : string :=
  if 45 <=? clues then "easy"
  else if 35 <=? clues then "medium"
  else if 25 <=? clues then "hard"
  else "expert".

(** The object returned by [getPuzzleStats]. *)
Record PuzzleStats := {
  statFilledCells : nat;
  statEmptyCells : nat;
  statDifficulty : string
}.

(** [getPuzzleStats(puzzle)] *)
Definition getPuzzleStats (puzzle : Grid) : PuzzleStats :=
  let filled := filledCells puzzle in
  {| statFilledCells := filled;
     statEmptyCells := 81 - filled;
     statDifficulty := estimateDifficulty filled |}.

End SudokuGenerator.

(** ** lambda/index.js: validation of a recognised puzzle *)

Module Lambda.

(** [isValidMove(grid, row, col, num)] *)
Definition isValidMove (g : Grid) (row col num : nat) : bool :=
  if existsb (λ x, cell g row x =? num) (seq 0 9) then false
  else if existsb (λ x, cell g x col =? num) (seq 0 9) then false
  else if existsb (λ '(i, j), cell g i j =? num) (boxPositions row col)
  then false
  else true.

Definition revalidateCell (g : Grid) (p : nat * nat) : bool * Grid :=
  let '(row, col) := p in
  let num := cell g row col in
  if negb (num =? 0) then
    let g1 := setCell g row col 0 in
    let isValid := isValidMove g1 row col num in
    (isValid, setCell g1 row col num)
  else (true, g).

Fixpoint revalidateFrom (ps : list (nat * nat)) (g : Grid) : bool * Grid :=
  match ps with
  | [] => (true, g)
  | p :: ps' =>
      let '(isValid, g') := revalidateCell g p in
      if isValid then revalidateFrom ps' g' else (false, g')
  end.

(** [isValidPuzzleState(grid)] *)
Definition isValidPuzzleState (g : Grid) : bool * Grid :=
  revalidateFrom allPositions g.

(** The loop [for (num = 1; num <= 9; num++) {..}] of [solveRecursive]. *)
Fixpoint tryAscending (rec : Grid → option (bool * Grid))
    (row col : nat) (nums : list nat) (g : Grid) : option (bool * Grid) :=
  match nums with
  | [] => Some (false, g)
  | num :: rest =>
      if isValidMove g row col num then
        match rec (setCell g row col num) with
        | None => None
        | Some (true, g') => Some (true, g')
        | Some (false, g') => tryAscending rec row col rest (setCell g' row col 0)
        end
      else tryAscending rec row col rest g
  end.

(** [solveRecursive(grid)]; [None] when the recursion budget runs out. *)
Fixpoint solveRecursive (fuel : nat) (g : Grid) : option (bool * Grid) :=
  match fuel with
  | 0 => None
  | S fuel' =>
      match find (λ '(row, col), cell g row col =? 0) allPositions with
      | None => Some (true, g)
      | Some (row, col) =>
          tryAscending (solveRecursive fuel') row col (seq 1 9) g
      end
  end.

(** [solvePuzzle(grid)] *)
Definition solvePuzzle (g : Grid) : option (option Grid) :=
  match solveRecursive 82 (deepCopy g) with
  | None => None
  | Some (true, sol) => Some (Some sol)
  | Some (false, _) => Some None
  end.

(** The object returned by [validateAndSolvePuzzle]. *)
Inductive Validation : Type :=
| Valid (solution : Grid)
| Invalid (error : string).

(** The checks of one row: its length, then its values.  Cells are natural
    numbers here, so of the test [!Number.isInteger(val) || val < 0 ||
    val > 9] only [val > 9] can fail. *)
Definition checkRow (puzzle : Grid) (row : nat) : option string :=
  if negb (length (puzzle !!! row) =? 9) then Some "Invalid puzzle row format"
  else if existsb (λ col, 9 <? cell puzzle row col) (seq 0 9)
  then Some "Invalid cell value"
  else None.

Fixpoint checkRows (puzzle : Grid) (rows : list nat) : option string :=
  match rows with
  | [] => None
  | row :: rest =>
      match checkRow puzzle row with
      | Some err => Some err
      | None => checkRows puzzle rest
      end
  end.

(** [validateAndSolvePuzzle(puzzle)], on an array of arrays of naturals; the
    outer [option] is the recursion budget of the solver. *)
Definition validateAndSolvePuzzle (puzzle : Grid) : option Validation :=
  if negb (length puzzle =? 9) then Some (Invalid "Invalid puzzle format")
  else
    match checkRows puzzle (seq 0 9) with
    | Some err => Some (Invalid err)
    | None =>
        let '(ok, puzzle') := isValidPuzzleState puzzle in
        if negb ok then Some (Invalid "Puzzle has conflicts")
        else
          match solvePuzzle (deepCopy puzzle') with
          | None => None
          | Some None => Some (Invalid "Puzzle has no valid solution")
          | Some (Some sol) => Some (Valid sol)
          end
    end.

End Lambda.

(** ** js/puzzles.js: class PuzzleManager *)

Module PuzzleManager.

(** [getGeneratedPuzzle(difficulty)]: the generator is always asked for
    'easy'.  The generator of the model does not throw, so the fallback of
    the [catch] branch is not reached; [startTime] is left out. *)
Definition getGeneratedPuzzle (difficulty : string) (rng : Rng)
  : option (SudokuGenerator.FreshPuzzle * Rng) :=
  SudokuGenerator.generateFreshPuzzle "easy" rng.

(** [getRandomPuzzle(difficulty)] *)
Definition getRandomPuzzle (difficulty : string) (rng : Rng)
  : option (SudokuGenerator.FreshPuzzle * Rng) :=
  getGeneratedPuzzle "easy" rng.

(** [validatePuzzle(grid)] *)
Definition validatePuzzle (g : Grid) : bool :=
  45 <=? length (filter (λ p, cell g p.1 p.2 ≠ 0) allPositions).

End PuzzleManager.

(** ** The grids of the scenarios *)

Definition scenarioA : Grid :=
  [[5;3;4;6;7;8;9;1;2]; [6;7;2;1;9;5;3;4;8]; [1;9;8;3;4;2;5;6;7];
   [8;5;9;7;6;1;4;2;3]; [4;2;6;8;5;3;7;9;1]; [7;1;3;9;2;4;8;5;6];
   [9;6;1;5;3;7;2;8;4]; [2;8;7;4;1;9;6;3;5]; [3;4;5;2;8;6;1;7;9]].

(** Scenario A with cell (8,8) zeroed. *)
Definition scenarioB : Grid := setCell scenarioA 8 8 0.

(** A consistent puzzle with no completion: the last cell of the first row
    needs a 9, and a 9 stands below it in its column. *)
Definition deadEnd : Grid :=
  [[1;2;3;4;5;6;7;8;0]; [0;0;0;0;0;0;0;0;0]; [0;0;0;0;0;0;0;0;0];
   [0;0;0;0;0;0;0;0;9]; [0;0;0;0;0;0;0;0;0]; [0;0;0;0;0;0;0;0;0];
   [0;0;0;0;0;0;0;0;0]; [0;0;0;0;0;0;0;0;0]; [0;0;0;0;0;0;0;0;0]].

Definition rng0 : Rng := {| oracle := λ n, n * n + 7 * n + 3; cursor := 0 |}.

(** The session after [init(scenarioB, scenarioA)]. *)
Definition sessionB : SudokuEngine.Engine :=
  {| SudokuEngine.grid := scenarioB;
     SudokuEngine.solution := Some scenarioA;
     SudokuEngine.initialGrid := scenarioB;
     SudokuEngine.pencilMarks := replicate 9 (replicate 9 ∅) |}.

(** Two cells constrain each other when they share a row, a column or a
    3x3 box. *)
Definition peer (row col r c : nat) : Prop :=
  r = row ∨ c = col ∨ (r / 3 = row / 3 ∧ c / 3 = col / 3).

(** * Properties *)

(** ** Reading and writing two-dimensional arrays *)

Section Array2.
Context {A : Type} `{!Inhabited A}.
Implicit Types (a : list (list A)) (v w : A).

Lemma at2_set2_ne a row col v r c :
  (r, c) ≠ (row, col) → at2 (set2 a row col v) r c = at2 a r c.
Proof.
  intros Hne. unfold at2, set2.
  destruct (decide (row = r)) as [->|Hr].
  - destruct (decide (r < length a)) as [Hlt|Hge].
    + rewrite list_lookup_total_insert_eq by done.
      rewrite list_lookup_total_insert_ne; [done | congruence].
    + rewrite list_insert_ge by lia. done.
  - by rewrite list_lookup_total_insert_ne.
Qed.

Lemma at2_set2_eq a row col v :
  row < length a → col < length (a !!! row) →
  at2 (set2 a row col v) row col = v.
Proof.
  intros Hr Hc. unfold at2, set2.
  rewrite list_lookup_total_insert_eq by done.
  by rewrite list_lookup_total_insert_eq.
Qed.

Lemma set2_at2 a row col : set2 a row col (at2 a row col) = a.
Proof.
  unfold at2, set2.
  destruct (decide (row < length a)) as [Hr|Hr];
    [|by rewrite list_insert_ge by lia].
  apply list_insert_id. rewrite list_lookup_lookup_total_lt by done.
  f_equal. symmetry. apply list_insert_id'. intros Hc.
  by apply list_lookup_lookup_total_lt.
Qed.

Lemma set2_set2 a row col v w :
  set2 (set2 a row col v) row col w = set2 a row col w.
Proof.
  unfold set2.
  destruct (decide (row < length a)) as [Hr|Hr].
  - rewrite list_lookup_total_insert_eq by done.
    by rewrite !list_insert_insert_eq.
  - by rewrite !(list_insert_ge a) by lia.
Qed.

Lemma wf2_row a row : wf2 a → row < 9 → length (a !!! row) = 9.
Proof.
  intros [Hlen Hrows] Hr.
  apply (Forall_lookup_1 _ _ row (a !!! row) Hrows).
  apply list_lookup_lookup_total_lt. lia.
Qed.

Lemma wf2_set2 a row col v : wf2 a → wf2 (set2 a row col v).
Proof.
  intros Hwf. pose proof Hwf as [Hlen Hrows]. unfold set2.
  destruct (decide (row < length a)) as [Hr|Hr];
    [|by rewrite list_insert_ge by lia].
  split; [by rewrite length_insert|].
  apply Forall_insert; [done|]. rewrite length_insert.
  apply wf2_row; [done | lia].
Qed.

Lemma at2_set2_wf a row col v :
  wf2 a → row < 9 → col < 9 → at2 (set2 a row col v) row col = v.
Proof.
  intros Hwf Hr Hc. apply at2_set2_eq.
  - destruct Hwf. lia.
  - rewrite wf2_row by done. lia.
Qed.
End Array2.

(** ** The positions visited by the loops *)

(** Facts about division by 3 for [lia]. *)
Ltac div3 x :=
  pose proof (Nat.div_mod_eq x 3); pose proof (Nat.mod_upper_bound x 3).

Lemma elem_of_allPositions r c : (r, c) ∈ allPositions ↔ r < 9 ∧ c < 9.
Proof.
  unfold allPositions. rewrite list_elem_of_bind. split.
  - intros (x & Hin & Hx). apply list_elem_of_fmap in Hin as (y & Heq & Hy).
    apply elem_of_seq in Hx, Hy. simplify_eq. lia.
  - intros [Hr Hc]. exists r. split; [|apply elem_of_seq; lia].
    apply list_elem_of_fmap. exists c. split; [done|]. apply elem_of_seq. lia.
Qed.

Lemma elem_of_boxPositions row col i j :
  (i, j) ∈ boxPositions row col ↔ i / 3 = row / 3 ∧ j / 3 = col / 3.
Proof.
  unfold boxPositions. rewrite list_elem_of_bind.
  div3 i; div3 j; div3 row; div3 col. split.
  - intros (x & Hin & Hx). apply list_elem_of_fmap in Hin as (y & Heq & Hy).
    apply elem_of_seq in Hx, Hy. simplify_eq. lia.
  - intros [Hr Hc]. exists i. split; [|apply elem_of_seq; lia].
    apply list_elem_of_fmap. exists j. split; [done|]. apply elem_of_seq. lia.
Qed.

Lemma boxPositions_in_range row col i j :
  row < 9 → col < 9 → (i, j) ∈ boxPositions row col → i < 9 ∧ j < 9.
Proof.
  intros Hr Hc [Hi Hj]%elem_of_boxPositions.
  div3 i; div3 j; div3 row; div3 col. lia.
Qed.

(** ** Cells of a grid *)

Lemma cell_setCell_ne g row col v r c :
  (r, c) ≠ (row, col) → cell (setCell g row col v) r c = cell g r c.
Proof. apply at2_set2_ne. Qed.

Lemma cell_setCell_eq g row col v :
  wf_grid g → row < 9 → col < 9 → cell (setCell g row col v) row col = v.
Proof. apply at2_set2_wf. Qed.

Lemma setCell_restore g row col v :
  setCell (setCell g row col v) row col (cell g row col) = g.
Proof. unfold setCell, cell. by rewrite set2_set2, set2_at2. Qed.

Lemma wf_grid_setCell g row col v : wf_grid g → wf_grid (setCell g row col v).
Proof. apply wf2_set2. Qed.

Lemma deepCopy_id g : deepCopy g = g.
Proof. unfold deepCopy. apply list_fmap_id. Qed.

Lemma existsb_elem_of {A} (f : A → bool) (l : list A) :
  existsb f l = true ↔ ∃ x, x ∈ l ∧ f x = true.
Proof.
  rewrite existsb_exists. split; intros (x & Hx & Hf); exists x;
    by rewrite ?list_elem_of_In in *.
Qed.

Lemma existsb_false_elem_of {A} (f : A → bool) (l : list A) :
  existsb f l = false ↔ ∀ x, x ∈ l → f x = false.
Proof.
  rewrite <-not_true_iff_false, existsb_elem_of. split.
  - intros Hno x Hx. apply not_true_iff_false. naive_solver.
  - intros Hall (x & Hx & Hf). rewrite (Hall x Hx) in Hf. done.
Qed.

(** ** Rejected moves *)

Import SudokuEngine.

Lemma init_sessionB : init new scenarioB (Some scenarioA) = Some (true, sessionB).
Proof. reflexivity. Qed.

Lemma placeNumber_rejected e row col num :
  success (placeNumber e row col num).1 = false →
  (placeNumber e row col num).2 = e
  ∧ is_Some (error (placeNumber e row col num).1).
Proof.
  unfold placeNumber. repeat case_match; simpl; try done; eauto.
Qed.

(** The shape of an engine: the grid, the given mask and the pencil marks
    are 9x9 arrays. *)
Definition wf_engine (e : Engine) : Prop :=
  wf_grid (grid e) ∧ wf_grid (initialGrid e) ∧ wf2 (pencilMarks e).

(** C7.  On a 9x9 engine and a cell of the grid, a rejected [placeNumber]
    returns a failure object and leaves the engine as it was: a given cell is
    refused with "Cannot modify given numbers", a value failing [isValidMove]
    on a free cell with "Invalid move", and whenever [success] is false the
    grid and every pencil-mark set are unchanged.  In the session of scenario
    B, [placeNumber(0,0,3)] is refused as a given cell and
    [placeNumber(8,8,5)] as an invalid move, and cell (8,8) stays 0. *)
Theorem C7_rejected_placeNumber_is_atomic :
  (∀ e row col num,
     wf_engine e → row < 9 → col < 9 →
     cell (initialGrid e) row col ≠ 0 →
     placeNumber e row col num =
       ({| success := false; error := Some "Cannot modify given numbers" |}, e))
  ∧ (∀ e row col num,
     wf_engine e → row < 9 → col < 9 →
     cell (initialGrid e) row col = 0 → num ≠ 0 →
     isValidMove e row col num = false →
     placeNumber e row col num =
       ({| success := false; error := Some "Invalid move" |}, e))
  ∧ (∀ e row col num,
     wf_engine e → row < 9 → col < 9 →
     success (placeNumber e row col num).1 = false →
     (placeNumber e row col num).2 = e
     ∧ is_Some (error (placeNumber e row col num).1))
  ∧ placeNumber sessionB 0 0 3 =
      ({| success := false; error := Some "Cannot modify given numbers" |},
       sessionB)
  ∧ placeNumber sessionB 8 8 5 =
      ({| success := false; error := Some "Invalid move" |}, sessionB)
  ∧ cell (grid (placeNumber sessionB 8 8 5).2) 8 8 = 0.
Proof.
  split_and!; try reflexivity.
  - intros e row col num _ _ _ Hgiven. unfold placeNumber.
    apply Nat.eqb_neq in Hgiven. by rewrite Hgiven.
  - intros e row col num _ _ _ Hfree Hnum Hbad. unfold placeNumber.
    apply Nat.eqb_eq in Hfree. apply Nat.eqb_neq in Hnum.
    by rewrite Hfree, Hnum, Hbad.
  - intros e row col num _ _ _. apply placeNumber_rejected.
Qed.

Lemma wf_engine_sessionB : wf_engine sessionB.
Proof.
  split_and!; (split; [reflexivity|]); cbn; repeat constructor.
Qed.

Lemma C7_witness :
  placeNumber sessionB 0 0 3 =
    ({| success := false; error := Some "Cannot modify given numbers" |},
     sessionB).
Proof.
  apply (proj1 C7_rejected_placeNumber_is_atomic).
  - exact wf_engine_sessionB.
  - lia.
  - lia.
  - vm_compute. lia.
Defined.

(** ** Conflicting cells *)

(** C3, counterexample.  In the session of scenario B cell (8,8) is empty and
    cell (8,2), in the same row, holds 5; yet [getConflictingCells(8,8,5)]
    is empty: the result depends on what the queried cell itself holds. *)
Lemma C3_conflicts_ignore_other_content :
  cell (grid sessionB) 8 8 = 0
  ∧ cell (grid sessionB) 8 2 = 5
  ∧ peer 8 8 8 2
  ∧ getConflictingCells sessionB 8 8 5 = []
  ∧ ¬ (∀ e row col num r c,
         row < 9 → col < 9 → 1 ≤ num ≤ 9 →
         ((r, c) ∈ getConflictingCells e row col num ↔
          r < 9 ∧ c < 9 ∧ (r, c) ≠ (row, col) ∧ peer row col r c
          ∧ cell (grid e) r c = num)).
Proof.
  split_and!; try reflexivity.
  - by left.
  - intros Hclaim.
    assert ((8, 2) ∈ getConflictingCells sessionB 8 8 5) as Hin.
    { apply Hclaim; [lia..|]. split_and!; try lia; try done.
      by left. }
    vm_compute in Hin. by apply elem_of_nil in Hin.
Qed.

(** C3, amended.  [getConflictingCells(row, col, num)] lists exactly the
    other cells of the row, column and box of [(row, col)] that hold [num],
    provided [(row, col)] itself holds [num] and [num] is not 0; when the
    queried cell holds anything else the list is empty. *)
Theorem C3_getConflictingCells_exact e row col num r c :
  row < 9 → col < 9 →
  (r, c) ∈ getConflictingCells e row col num ↔
    (cell (grid e) row col = num ∧ num ≠ 0)
    ∧ r < 9 ∧ c < 9 ∧ (r, c) ≠ (row, col) ∧ peer row col r c
    ∧ cell (grid e) r c = num.
Proof.
  intros Hrow Hcol. unfold getConflictingCells, peer.
  destruct (cell (grid e) row col =? 0) eqn:Hz; cbn [orb negb].
  { apply Nat.eqb_eq in Hz. rewrite elem_of_nil. split; [done|].
    intros [[? ?] _]. congruence. }
  destruct (cell (grid e) row col =? num) eqn:Hn; cbn [orb negb].
  2:{ apply Nat.eqb_neq in Hn. rewrite elem_of_nil. split; [done|].
      intros [[? ?] _]. congruence. }
  apply Nat.eqb_neq in Hz. apply Nat.eqb_eq in Hn.
  rewrite !elem_of_app, !list_elem_of_fmap. split.
  - intros [(x & Heq & Hx) | [(x & Heq & Hx) | Hb]].
    + apply list_elem_of_filter in Hx as [[Hne Hval] Hx%elem_of_seq].
      simplify_eq. split_and!; try done; try lia; try congruence; by left.
    + apply list_elem_of_filter in Hx as [[Hne Hval] Hx%elem_of_seq].
      simplify_eq. split_and!; try done; try lia; try congruence;
        by right; left.
    + apply list_elem_of_filter in Hb as [[Hne Hval] Hb]. cbn [fst snd] in *.
      pose proof (boxPositions_in_range _ _ _ _ Hrow Hcol Hb) as [? ?].
      apply elem_of_boxPositions in Hb.
      split_and!; try done; try lia; try congruence.
      intros [= -> ->]. by destruct Hne.
  - intros ([_ Hnum] & Hr & Hc & Hne & Hpeer & Hval).
    destruct Hpeer as [-> | [-> | Hbox]].
    + left. exists c. split; [done|]. apply list_elem_of_filter.
      split; [split; [congruence | done] | apply elem_of_seq; lia].
    + right; left. exists r. split; [done|]. apply list_elem_of_filter.
      split; [split; [congruence | done] | apply elem_of_seq; lia].
    + right; right. apply list_elem_of_filter. cbn [fst snd].
      split; [split; [|done] | by apply elem_of_boxPositions].
      destruct (decide (r = row)); [|by left].
      destruct (decide (c = col)); [|by right]. congruence.
Qed.

Lemma C3_witness :
  (8, 2) ∈ getConflictingCells
             (with_grid sessionB (setCell (grid sessionB) 8 8 5)) 8 8 5.
Proof.
  apply (C3_getConflictingCells_exact _ 8 8 5 8 2); [lia | lia |].
  split_and!; [reflexivity | lia | lia | lia | discriminate | by left
               | reflexivity].
Defined.

(** ** Deriving a puzzle from a solution *)

Import SudokuGenerator.

Lemma set2_out_of_range {A} `{!Inhabited A} (a : list (list A)) row col v :
  ¬ (row < length a ∧ col < length (a !!! row)) → set2 a row col v = a.
Proof.
  intros Hout. unfold set2.
  destruct (decide (row < length a)) as [Hr|Hr];
    [|by rewrite list_insert_ge by lia].
  rewrite (list_insert_ge (a !!! row)) by lia.
  apply list_insert_id. by apply list_lookup_lookup_total_lt.
Qed.

Lemma cell_setCell_cases g row col v r c :
  cell (setCell g row col v) r c = v
  ∨ cell (setCell g row col v) r c = cell g r c.
Proof.
  destruct (decide ((r, c) = (row, col))) as [[= -> ->]|Hne];
    [|right; by apply cell_setCell_ne].
  unfold cell, setCell.
  destruct (decide (row < length g ∧ col < length (g !!! row))) as [[? ?]|Hout].
  - left. by apply at2_set2_eq.
  - right. by rewrite set2_out_of_range.
Qed.

Lemma removeStep_restores st pos :
  hasUniqueSolution (setCell st.1 pos.1 pos.2 0) = false →
  removeStep st pos = st.
Proof.
  destruct st as [puzzle clues], pos as [row col]. cbn [fst snd removeStep].
  intros ->. by rewrite setCell_restore.
Qed.

Lemma removeStep_cell st pos r c :
  cell (removeStep st pos).1 r c = 0
  ∨ cell (removeStep st pos).1 r c = cell st.1 r c.
Proof.
  destruct (hasUniqueSolution (setCell st.1 pos.1 pos.2 0)) eqn:Hgate.
  - destruct st as [puzzle clues], pos as [row col].
    cbn [fst snd removeStep] in *. rewrite Hgate. cbn [fst].
    apply cell_setCell_cases.
  - right. by rewrite removeStep_restores.
Qed.

Lemma removeLoop_cell positions target st r c :
  cell (removeLoop positions target st).1 r c = 0
  ∨ cell (removeLoop positions target st).1 r c = cell st.1 r c.
Proof.
  revert st. induction positions as [|pos rest IH]; intros st; cbn [removeLoop].
  - by right.
  - destruct (st.2 <=? target); [by right|].
    destruct (IH (removeStep st pos)) as [Hz | Heq]; [by left|].
    rewrite Heq. apply removeStep_cell.
Qed.

(** C5.  Every non-zero cell of the puzzle returned by [createPuzzle]
    holds the value the solution has at that cell, for every solution grid,
    every difficulty string and every run of the random source. *)
Theorem C5_givens_come_from_solution sol difficulty rng r c :
  cell (createPuzzle sol difficulty rng).1 r c ≠ 0 →
  cell (createPuzzle sol difficulty rng).1 r c = cell sol r c.
Proof.
  unfold createPuzzle.
  destruct (targetClues difficulty rng) as [target rng1].
  destruct (shuffleArray allPositions rng1) as [positions rng2].
  cbn [fst]. intros Hnz.
  destruct (removeLoop_cell positions target (deepCopy sol, 81) r c)
    as [Hz | Heq]; [done|].
  by rewrite Heq, deepCopy_id.
Qed.

Lemma C5_witness :
  cell (createPuzzle scenarioA "expert" rng0).1 0 1 = cell scenarioA 0 1.
Proof.
  apply C5_givens_come_from_solution. vm_compute. discriminate.
Defined.

(** ** The 64-empty-cell gate *)

Lemma filter_complement_length {A} (P : A → Prop) `{!∀ x, Decision (P x)}
    (l : list A) :
  length (filter P l) + length (filter (λ x, ¬ P x) l) = length l.
Proof.
  induction l as [|x l IH]; [done|].
  rewrite !filter_cons. destruct (decide (P x)), (decide (¬ P x));
    cbn [length]; try done; lia.
Qed.

Lemma filled_plus_empty puzzle : filledCells puzzle + countEmpty puzzle = 81.
Proof.
  unfold filledCells, countEmpty.
  rewrite Nat.add_comm.
  apply (filter_complement_length (λ p, cell puzzle p.1 p.2 = 0) allPositions).
Qed.

Lemma removeStep_gate st pos :
  countEmpty st.1 ≤ 64 → countEmpty (removeStep st pos).1 ≤ 64.
Proof.
  intros Hinv.
  destruct (hasUniqueSolution (setCell st.1 pos.1 pos.2 0)) eqn:Hgate.
  - destruct st as [puzzle clues], pos as [row col].
    cbn [fst snd removeStep] in *. rewrite Hgate. cbn [fst].
    by apply Nat.leb_le.
  - by rewrite removeStep_restores.
Qed.

Lemma removeLoop_gate positions target st :
  countEmpty st.1 ≤ 64 → countEmpty (removeLoop positions target st).1 ≤ 64.
Proof.
  revert st. induction positions as [|pos rest IH]; intros st Hinv;
    cbn [removeLoop]; [done|].
  destruct (st.2 <=? target); [done|]. by apply IH, removeStep_gate.
Qed.

(** C6.  From a solution with 81 clues, the puzzle returned by
    [createPuzzle] has at most 81 and at least 17 clues, that is at most 64
    empty cells; the bound holds after every number of iterations of the
    removal loop, for every target and visiting order; and a tentative removal
    that leaves more than 64 empty cells is undone, the state of the loop
    being what it was before. *)
Theorem C6_clue_count_stays_above_gate sol difficulty rng :
  filledCells sol = 81 →
  filledCells (createPuzzle sol difficulty rng).1 ≤ 81
  ∧ 17 ≤ filledCells (createPuzzle sol difficulty rng).1
  ∧ countEmpty (createPuzzle sol difficulty rng).1 ≤ 64
  ∧ (∀ n positions target,
       countEmpty (removeLoop (take n positions) target (deepCopy sol, 81)).1
       ≤ 64)
  ∧ (∀ st pos,
       64 < countEmpty (setCell st.1 pos.1 pos.2 0) →
       removeStep st pos = st).
Proof.
  intros Hfull.
  assert (countEmpty (deepCopy sol) ≤ 64) as Hstart.
  { rewrite deepCopy_id. pose proof (filled_plus_empty sol). lia. }
  assert (countEmpty (createPuzzle sol difficulty rng).1 ≤ 64) as Hend.
  { unfold createPuzzle.
    destruct (targetClues difficulty rng) as [target rng1].
    destruct (shuffleArray allPositions rng1) as [positions rng2].
    cbn [fst]. by apply removeLoop_gate. }
  pose proof (filled_plus_empty (createPuzzle sol difficulty rng).1).
  split_and!; try lia.
  - intros n positions target. by apply removeLoop_gate.
  - intros st pos Hover. apply removeStep_restores.
    unfold hasUniqueSolution. apply Nat.leb_gt. lia.
Qed.

Lemma C6_witness :
  17 ≤ filledCells (createPuzzle scenarioA "expert" rng0).1.
Proof.
  apply (C6_clue_count_stays_above_gate scenarioA "expert" rng0).
  reflexivity.
Defined.

(** ** Hints *)

(** Row-major order on positions. *)
Definition before (p q : nat * nat) : Prop :=
  p.1 < q.1 ∨ (p.1 = q.1 ∧ p.2 < q.2).

Definition beforeb (p q : nat * nat) : bool :=
  (p.1 <? q.1) || ((p.1 =? q.1) && (p.2 <? q.2)).

Lemma beforeb_before p q : beforeb p q = true ↔ before p q.
Proof.
  unfold beforeb, before.
  rewrite orb_true_iff, andb_true_iff, !Nat.ltb_lt, Nat.eqb_eq. done.
Qed.

(** [allPositions] lists the cells in row-major order: the cell [(r, c)]
    stands at index [9 * r + c], after the cells before it and ahead of the
    others. *)
Lemma allPositions_row_major r c :
  r < 9 → c < 9 →
  allPositions =
    take (9 * r + c) allPositions ++ (r, c) :: drop (S (9 * r + c)) allPositions
  ∧ (∀ p, p ∈ take (9 * r + c) allPositions → before p (r, c))
  ∧ (∀ p, before p (r, c) → p.1 < 9 → p.2 < 9 →
          p ∈ take (9 * r + c) allPositions).
Proof.
  intros Hr Hc.
  assert (forallb (λ q,
            bool_decide (allPositions !! (9 * q.1 + q.2) = Some q)
            && forallb (λ p, beforeb p q) (take (9 * q.1 + q.2) allPositions)
            && forallb (λ p, implb (beforeb p q)
                         (bool_decide (p ∈ take (9 * q.1 + q.2) allPositions)))
                 allPositions)
            allPositions = true) as Hall by (vm_compute; reflexivity).
  rewrite forallb_forall in Hall.
  specialize (Hall (r, c)). rewrite <-list_elem_of_In in Hall.
  specialize (Hall (proj2 (elem_of_allPositions r c) (conj Hr Hc))).
  cbn [fst snd] in Hall.
  apply andb_true_iff in Hall as [[Hidx Hpre]%andb_true_iff Hpost].
  apply bool_decide_eq_true in Hidx.
  rewrite forallb_forall in Hpre, Hpost. split_and!.
  - rewrite <-(take_drop_middle _ _ _ Hidx) at 1. done.
  - intros p Hp. apply beforeb_before, Hpre. by apply list_elem_of_In.
  - intros [pr pc] Hbefore Hpr Hpc. cbn [fst snd] in *.
    assert (In (pr, pc) allPositions) as Hin
      by by apply list_elem_of_In, elem_of_allPositions.
    specialize (Hpost _ Hin). apply beforeb_before in Hbefore.
    rewrite Hbefore in Hpost. by apply bool_decide_eq_true in Hpost.
Qed.

Lemma find_app_first {A} (f : A → bool) (l1 l2 : list A) x :
  (∀ y, y ∈ l1 → f y = false) → f x = true →
  find f (l1 ++ x :: l2) = Some x.
Proof.
  intros Hl1 Hx. induction l1 as [|y l1 IH]; cbn [find app].
  - by rewrite Hx.
  - rewrite (Hl1 y) by apply list_elem_of_here.
    apply IH. intros z Hz. apply Hl1. by apply list_elem_of_further.
Qed.

Lemma length_one_singleton {A} `{!Inhabited A} (l : list A) :
  length l = 1 → l = [l !!! 0].
Proof. by destruct l as [|x [|y l]]. Qed.

Definition emptyCells (e : Engine) : list (nat * nat) :=
  filter (λ p, cell (grid e) p.1 p.2 = 0) allPositions.

Lemma emptyCells_none e :
  length (emptyCells e) = 0 ↔ ∀ r c, r < 9 → c < 9 → cell (grid e) r c ≠ 0.
Proof.
  unfold emptyCells. rewrite length_zero_iff_nil. split.
  - intros Hnil r c Hr Hc Hz.
    assert ((r, c) ∈ filter (λ p, cell (grid e) p.1 p.2 = 0) allPositions)
      as Hin by (apply list_elem_of_filter; split;
                 [done | by apply elem_of_allPositions]).
    rewrite Hnil in Hin. by apply elem_of_nil in Hin.
  - intros Hfull. apply elem_of_nil_inv. intros [r c] Hin.
    apply list_elem_of_filter in Hin as [Hz [Hr Hc]%elem_of_allPositions].
    by apply (Hfull r c).
Qed.

(** C9.  [getHint] returns [null] exactly when no cell of the grid is empty.
    When the grid has an empty cell whose [getPossibleValues] is a single
    value, [getHint] returns the first such cell in row-major order with that
    value, and the random source is not read.  Every hint with the reason
    "Only one possible value" carries the unique element of
    [getPossibleValues] of its cell. *)
Theorem C9_getHint_forced_value e rng :
  ((getHint e rng).1 = Return None ↔
     ∀ r c, r < 9 → c < 9 → cell (grid e) r c ≠ 0)
  ∧ (∀ r c v,
       r < 9 → c < 9 → cell (grid e) r c = 0 →
       getPossibleValues e r c = [v] →
       (∀ r' c', r' < 9 → c' < 9 → before (r', c') (r, c) →
                 cell (grid e) r' c' = 0 →
                 length (getPossibleValues e r' c') ≠ 1) →
       getHint e rng =
         (Return (Some {| hrow := r; hcol := c; value := v;
                          reason := "Only one possible value" |}), rng))
  ∧ (∀ h, (getHint e rng).1 = Return (Some h) →
          reason h = "Only one possible value" →
          cell (grid e) (hrow h) (hcol h) = 0
          ∧ getPossibleValues e (hrow h) (hcol h) = [value h]).
Proof.
  unfold getHint. fold (emptyCells e). split_and!.
  - rewrite <-emptyCells_none.
    destruct (length (emptyCells e) =? 0) eqn:Hlen.
    + apply Nat.eqb_eq in Hlen. done.
    + apply Nat.eqb_neq in Hlen. split; [|done].
      destruct (find _ _); [done|].
      destruct (randomBelow _ _), (solution e); done.
  - intros r c v Hr Hc Hz Hposs Hfirst.
    destruct (allPositions_row_major r c Hr Hc) as (Hsplit & Hpre & _).
    assert (emptyCells e =
              filter (λ p, cell (grid e) p.1 p.2 = 0)
                (take (9 * r + c) allPositions)
              ++ (r, c) :: filter (λ p, cell (grid e) p.1 p.2 = 0)
                             (drop (S (9 * r + c)) allPositions)) as Hcells.
    { unfold emptyCells. rewrite Hsplit at 1.
      rewrite filter_app, filter_cons. cbn [fst snd].
      by rewrite decide_True. }
    rewrite Hcells at 1.
    destruct (length (_ ++ _) =? 0) eqn:Hlen.
    { apply Nat.eqb_eq in Hlen. rewrite length_app in Hlen.
      cbn [length] in Hlen. lia. }
    rewrite Hcells. rewrite find_app_first.
    + cbn [fst snd]. by rewrite Hposs.
    + intros [r' c'] Hin. apply list_elem_of_filter in Hin as [Hz' Hin].
      cbn [fst snd] in *. apply Nat.eqb_neq.
      pose proof (Hpre _ Hin) as Hbefore.
      apply elem_of_take in Hin as (i & Hi & _).
      apply list_elem_of_lookup_2, elem_of_allPositions in Hi as [? ?].
      by apply Hfirst.
    + cbn [fst snd]. by rewrite Hposs.
  - intros h.
    destruct (length (emptyCells e) =? 0); [done|].
    destruct (find _ _) as [p|] eqn:Hfind.
    + cbn [fst]. intros [= <-] _. cbn [hrow hcol value].
      apply find_some in Hfind as [Hin Hone].
      apply list_elem_of_In, list_elem_of_filter in Hin as [Hz _].
      apply Nat.eqb_eq in Hone. split; [done|].
      by apply length_one_singleton.
    + destruct (randomBelow _ _), (solution e); [|done].
      cbn [fst]. intros [= <-]. cbn [reason]. done.
Qed.

Lemma C9_witness :
  getHint sessionB rng0 =
    (Return (Some {| hrow := 8; hcol := 8; value := 9;
                     reason := "Only one possible value" |}), rng0).
Proof.
  apply (proj1 (proj2 (C9_getHint_forced_value sessionB rng0)));
    [lia | lia | reflexivity | reflexivity |].
  intros r' c' Hr Hc Hbefore Hz. exfalso. revert Hz.
  assert (forallb (λ p, implb (beforeb p (8, 8))
                     (negb (cell (grid sessionB) p.1 p.2 =? 0)))
            allPositions = true) as Hall by (vm_compute; reflexivity).
  rewrite forallb_forall in Hall.
  specialize (Hall (r', c')). rewrite <-list_elem_of_In in Hall.
  specialize (Hall (proj2 (elem_of_allPositions r' c') (conj Hr Hc))).
  apply beforeb_before in Hbefore. rewrite Hbefore in Hall.
  cbn [implb fst snd] in Hall. apply negb_true_iff, Nat.eqb_neq in Hall.
  done.
Defined.

(** ** Pencil marks *)

Definition wf_marks (e : Engine) : Prop := wf2 (pencilMarks e).

Lemma marks_removePencilMark e r c n r' c' :
  wf_marks e → r < 9 → c < 9 →
  marks (removePencilMark e r c n) r' c' =
    if decide ((r', c') = (r, c)) then marks e r c ∖ {[n]} else marks e r' c'.
Proof.
  intros Hwf Hr Hc. unfold marks, removePencilMark. cbn [pencilMarks with_marks].
  case_decide as Heq.
  - injection Heq as -> ->. by apply at2_set2_wf.
  - by apply at2_set2_ne.
Qed.

Lemma marks_clearPencilMarksForCell e r c r' c' :
  wf_marks e → r < 9 → c < 9 →
  marks (clearPencilMarksForCell e r c) r' c' =
    if decide ((r', c') = (r, c)) then ∅ else marks e r' c'.
Proof.
  intros Hwf Hr Hc. unfold marks, clearPencilMarksForCell.
  cbn [pencilMarks with_marks]. case_decide as Heq.
  - injection Heq as -> ->. by apply at2_set2_wf.
  - by apply at2_set2_ne.
Qed.

(** Removing [n] at every position of a list. *)
Definition removeAt (n : nat) (e : Engine) (ps : list (nat * nat)) : Engine :=
  foldl (λ e p, removePencilMark e p.1 p.2 n) e ps.

Lemma removeAt_spec n ps e :
  wf_marks e → (∀ p, p ∈ ps → p.1 < 9 ∧ p.2 < 9) →
  wf_marks (removeAt n e ps)
  ∧ grid (removeAt n e ps) = grid e
  ∧ ∀ r c, marks (removeAt n e ps) r c =
           if decide ((r, c) ∈ ps) then marks e r c ∖ {[n]} else marks e r c.
Proof.
  revert e. induction ps as [|[pr pc] ps IH]; intros e Hwf Hrange.
  - split_and!; [done..|]. intros r c. rewrite decide_False; [done|].
    apply not_elem_of_nil.
  - destruct (Hrange (pr, pc)) as [Hpr Hpc]; [apply list_elem_of_here|].
    cbn [fst snd] in *.
    destruct (IH (removePencilMark e pr pc n)) as (Hwf' & Hgrid & Hmarks).
    { by apply wf2_set2. }
    { intros p Hp. apply Hrange. by apply list_elem_of_further. }
    unfold removeAt in *. cbn [foldl fst snd].
    split_and!; [done..|]. intros r c.
    rewrite Hmarks, !marks_removePencilMark by done.
    repeat case_decide; simplify_eq; try set_solver.
Qed.

Lemma removeAt_initialGrid n ps e :
  initialGrid (removeAt n e ps) = initialGrid e.
Proof.
  revert e. induction ps as [|p ps IH]; intros e; [done|].
  unfold removeAt in *. cbn [foldl]. by rewrite IH.
Qed.

Lemma foldl_pointwise {A B} (f g : A → B → A) (l : list B) (a : A) :
  (∀ a x, f a x = g a x) → foldl f a l = foldl g a l.
Proof.
  intros Hfg. revert a. induction l as [|x l IH]; intros a; [done|].
  cbn [foldl]. by rewrite Hfg, IH.
Qed.

Lemma updatePencilMarks_removeAt e row col num :
  updatePencilMarks e row col num =
    removeAt num
      (removeAt num
         (removeAt num e ((λ x, (row, x)) <$> seq 0 9))
         ((λ x, (x, col)) <$> seq 0 9))
      (boxPositions row col).
Proof.
  unfold updatePencilMarks, removeAt. rewrite !foldl_fmap. cbn [fst snd].
  apply foldl_pointwise. by intros e' [i j].
Qed.

Lemma updatePencilMarks_spec e row col num :
  wf_marks e → row < 9 → col < 9 →
  wf_marks (updatePencilMarks e row col num)
  ∧ grid (updatePencilMarks e row col num) = grid e
  ∧ ∀ r c, marks (updatePencilMarks e row col num) r c =
           if decide (r < 9 ∧ c < 9 ∧ peer row col r c)
           then marks e r c ∖ {[num]} else marks e r c.
Proof.
  intros Hwf Hrow Hcol. rewrite updatePencilMarks_removeAt.
  destruct (removeAt_spec num ((λ x, (row, x)) <$> seq 0 9) e)
    as (Hwf1 & Hg1 & Hm1); [done| |].
  { intros p (x & -> & Hx%elem_of_seq)%list_elem_of_fmap. cbn. lia. }
  destruct (removeAt_spec num ((λ x, (x, col)) <$> seq 0 9)
              (removeAt num e ((λ x, (row, x)) <$> seq 0 9)))
    as (Hwf2 & Hg2 & Hm2); [done| |].
  { intros p (x & -> & Hx%elem_of_seq)%list_elem_of_fmap. cbn. lia. }
  destruct (removeAt_spec num (boxPositions row col)
              (removeAt num (removeAt num e ((λ x, (row, x)) <$> seq 0 9))
                 ((λ x, (x, col)) <$> seq 0 9)))
    as (Hwf3 & Hg3 & Hm3); [done| |].
  { intros [i j] Hp. by apply (boxPositions_in_range row col). }
  split_and!; [done | congruence |]. intros r c.
  rewrite Hm3, Hm2, Hm1.
  assert ((r, c) ∈ (λ x, (row, x)) <$> seq 0 9 ↔ r = row ∧ c < 9) as Hin1.
  { rewrite list_elem_of_fmap. split.
    - intros (x & [= -> ->] & Hx%elem_of_seq). lia.
    - intros [-> Hc]. exists c. split; [done|]. apply elem_of_seq. lia. }
  assert ((r, c) ∈ (λ x, (x, col)) <$> seq 0 9 ↔ c = col ∧ r < 9) as Hin2.
  { rewrite list_elem_of_fmap. split.
    - intros (x & [= -> ->] & Hx%elem_of_seq). lia.
    - intros [-> Hr]. exists r. split; [done|]. apply elem_of_seq. lia. }
  pose proof (elem_of_boxPositions row col r c) as Hin3.
  pose proof (boxPositions_in_range row col r c Hrow Hcol) as Hrange.
  assert (r < 9 ∧ c < 9 ∧ peer row col r c ↔
          (r, c) ∈ (λ x, (row, x)) <$> seq 0 9
          ∨ (r, c) ∈ (λ x, (x, col)) <$> seq 0 9
          ∨ (r, c) ∈ boxPositions row col) as Htouched.
  { rewrite Hin1, Hin2, Hin3. unfold peer. split.
    - intros (Hr & Hc & [-> | [-> | Hbox]]); auto.
    - intros [[-> Hc] | [[-> Hr] | Hbox]]; [auto; lia..|].
      destruct Hrange as [Hr Hc]; [by apply Hin3|]. auto. }
  clear -Htouched. generalize (marks e r c). intros X.
  destruct (decide ((r, c) ∈ boxPositions row col)),
    (decide ((r, c) ∈ (λ x, (x, col)) <$> seq 0 9)),
    (decide ((r, c) ∈ (λ x, (row, x)) <$> seq 0 9)),
    (decide (r < 9 ∧ c < 9 ∧ peer row col r c));
    try (exfalso; tauto); clear -X; set_solver.
Qed.

(** The pencil marks after a committed [placeNumber]. *)
Lemma placeNumber_commit e row col num res e' :
  wf_marks e → row < 9 → col < 9 → num ≠ 0 →
  placeNumber e row col num = (res, e') → success res = true →
  wf_marks e'
  ∧ grid e' = setCell (grid e) row col num
  ∧ initialGrid e' = initialGrid e
  ∧ ∀ r c, marks e' r c =
           if decide ((r, c) = (row, col)) then ∅
           else if decide (r < 9 ∧ c < 9 ∧ peer row col r c)
                then marks e r c ∖ {[num]} else marks e r c.
Proof.
  intros Hwf Hrow Hcol Hnum. unfold placeNumber.
  apply Nat.eqb_neq in Hnum. rewrite Hnum.
  destruct (negb _); [by intros [= <- <-]|].
  destruct (isValidMove e row col num); [|by intros [= <- <-]].
  intros [= <- <-] _.
  set (e1 := with_grid e (setCell (grid e) row col num)).
  assert (wf_marks e1) as Hwf1 by done.
  assert (wf_marks (clearPencilMarksForCell e1 row col)) as Hwf2
    by by apply wf2_set2.
  destruct (updatePencilMarks_spec (clearPencilMarksForCell e1 row col)
              row col num Hwf2 Hrow Hcol) as (Hwf3 & Hg3 & Hm3).
  split_and!; [done | by rewrite Hg3 | |].
  - by rewrite updatePencilMarks_removeAt, !removeAt_initialGrid.
  - intros r c. rewrite Hm3, marks_clearPencilMarksForCell by done.
    assert (peer row col row col) by by left.
    repeat case_decide; simplify_eq; try done; try set_solver;
      exfalso; naive_solver.
Qed.

(** C8.  After a committed [placeNumber(row, col, v)] with [v] in 1..9: the
    pencil marks of the cell are empty; [v] is in the pencil marks of no cell
    of its row, column or box; the pencil marks of every cell are a subset of
    what they were; cells outside the row, column and box keep their pencil
    marks; and in every other cell the marks for digits other than [v] are
    unchanged. *)
Theorem C8_commit_prunes_pencil_marks e row col v res e' :
  wf_marks e → row < 9 → col < 9 → 1 ≤ v ≤ 9 →
  placeNumber e row col v = (res, e') → success res = true →
  marks e' row col = ∅
  ∧ (∀ r c, r < 9 → c < 9 → peer row col r c → v ∉ marks e' r c)
  ∧ (∀ r c, marks e' r c ⊆ marks e r c)
  ∧ (∀ r c, ¬ peer row col r c → marks e' r c = marks e r c)
  ∧ (∀ r c d, (r, c) ≠ (row, col) → d ≠ v →
              (d ∈ marks e' r c ↔ d ∈ marks e r c)).
Proof.
  intros Hwf Hrow Hcol Hv Hplace Hok.
  destruct (placeNumber_commit e row col v res e') as (_ & _ & _ & Hm);
    [done | done | done | lia | done | done |].
  split_and!.
  - by rewrite Hm, decide_True.
  - intros r c Hr Hc Hpeer. rewrite Hm.
    case_decide; [set_solver|]. rewrite decide_True by done. set_solver.
  - intros r c. rewrite Hm. repeat case_decide; set_solver.
  - intros r c Hout. rewrite Hm.
    rewrite decide_False.
    + rewrite decide_False; [done|]. by intros (_ & _ & ?).
    + intros [= -> ->]. apply Hout. by left.
  - intros r c d Hne Hd. rewrite Hm.
    rewrite decide_False by done. case_decide; set_solver.
Qed.

Lemma wf_marks_sessionB : wf_marks sessionB.
Proof. split; [reflexivity|]. cbn. repeat constructor. Qed.

(** A session with four empty cells, (0,0), (0,8), (8,0) and (8,8), in which
    the player has pencilled 4 at (8,8), 9 and 3 at (8,0), 9 at (0,8) and 9
    at (0,0). *)
Definition sparsePuzzle : Grid :=
  setCell (setCell (setCell scenarioB 8 0 0) 0 8 0) 0 0 0.

Definition sparseSession : Engine :=
  {| grid := sparsePuzzle; solution := Some scenarioA;
     initialGrid := sparsePuzzle;
     pencilMarks := replicate 9 (replicate 9 ∅) |}.

Definition markedSession : Engine :=
  let e1 := (togglePencilMark sparseSession 8 8 4).2 in
  let e2 := (togglePencilMark e1 8 0 9).2 in
  let e3 := (togglePencilMark e2 8 0 3).2 in
  let e4 := (togglePencilMark e3 0 8 9).2 in
  (togglePencilMark e4 0 0 9).2.

Lemma init_sparseSession :
  init new sparsePuzzle (Some scenarioA) = Some (true, sparseSession).
Proof. reflexivity. Qed.

Lemma wf_marks_markedSession : wf_marks markedSession.
Proof.
  split; [reflexivity|]. vm_compute. repeat constructor.
Qed.

Lemma C8_witness :
  (4 ∈ marks markedSession 8 8
   ∧ 9 ∈ marks markedSession 8 0 ∧ 3 ∈ marks markedSession 8 0
   ∧ 9 ∈ marks markedSession 0 8 ∧ 9 ∈ marks markedSession 0 0)
  ∧ marks (placeNumber markedSession 8 8 9).2 8 8 = ∅
  ∧ (9 ∉ marks (placeNumber markedSession 8 8 9).2 8 0)
  ∧ (9 ∉ marks (placeNumber markedSession 8 8 9).2 0 8)
  ∧ 3 ∈ marks (placeNumber markedSession 8 8 9).2 8 0
  ∧ marks (placeNumber markedSession 8 8 9).2 0 0 = marks markedSession 0 0.
Proof.
  assert (4 ∈ marks markedSession 8 8
          ∧ 9 ∈ marks markedSession 8 0 ∧ 3 ∈ marks markedSession 8 0
          ∧ 9 ∈ marks markedSession 0 8 ∧ 9 ∈ marks markedSession 0 0)
    as Hbefore.
  { split_and!; apply (bool_decide_unpack _); vm_compute; exact I. }
  split; [exact Hbefore|].
  destruct (C8_commit_prunes_pencil_marks markedSession 8 8 9
              (placeNumber markedSession 8 8 9).1
              (placeNumber markedSession 8 8 9).2)
    as (Hcell & Hpruned & _ & Hframe & Hothers).
  - exact wf_marks_markedSession.
  - lia.
  - lia.
  - lia.
  - apply surjective_pairing.
  - reflexivity.
  - split_and!.
    + exact Hcell.
    + apply Hpruned; [lia | lia | by left].
    + apply Hpruned; [lia | lia | by right; left].
    + apply Hothers; [discriminate | lia | apply Hbefore].
    + apply Hframe. unfold peer. cbn. lia.
Defined.

(** ** Pencil marks of filled cells *)

Definition clearAt (e : Engine) (ps : list (nat * nat)) : Engine :=
  foldl (λ e '(row, col), clearPencilMarksForCell e row col) e ps.

Lemma clearAt_spec ps e :
  wf_marks e → (∀ p, p ∈ ps → p.1 < 9 ∧ p.2 < 9) →
  wf_marks (clearAt e ps)
  ∧ grid (clearAt e ps) = grid e
  ∧ initialGrid (clearAt e ps) = initialGrid e
  ∧ solution (clearAt e ps) = solution e
  ∧ ∀ r c, marks (clearAt e ps) r c =
           if decide ((r, c) ∈ ps) then ∅ else marks e r c.
Proof.
  revert e. induction ps as [|[pr pc] ps IH]; intros e Hwf Hrange.
  - split_and!; [done..|]. intros r c. rewrite decide_False; [done|].
    apply not_elem_of_nil.
  - destruct (Hrange (pr, pc)) as [Hpr Hpc]; [apply list_elem_of_here|].
    cbn [fst snd] in *.
    destruct (IH (clearPencilMarksForCell e pr pc))
      as (Hwf' & Hgrid & Hinit & Hsol & Hmarks).
    { by apply wf2_set2. }
    { intros p Hp. apply Hrange. by apply list_elem_of_further. }
    unfold clearAt in *. cbn [foldl].
    split_and!; [done..|]. intros r c.
    rewrite Hmarks, !marks_clearPencilMarksForCell by done.
    repeat case_decide; simplify_eq; try done; set_solver.
Qed.

Lemma clearPencilMarks_spec e :
  wf_marks e →
  wf_marks (clearPencilMarks e)
  ∧ grid (clearPencilMarks e) = grid e
  ∧ initialGrid (clearPencilMarks e) = initialGrid e
  ∧ solution (clearPencilMarks e) = solution e
  ∧ ∀ r c, r < 9 → c < 9 → marks (clearPencilMarks e) r c = ∅.
Proof.
  intros Hwf.
  destruct (clearAt_spec allPositions e Hwf)
    as (Hwf' & Hgrid & Hinit & Hsol & Hmarks).
  { by intros [r c] Hp%elem_of_allPositions. }
  split_and!; [done..|]. intros r c Hr Hc.
  unfold clearPencilMarks. fold (clearAt e allPositions).
  rewrite Hmarks, decide_True; [done|]. by apply elem_of_allPositions.
Qed.

(** The states of a session: [init] on a fresh or on a used engine, then any
    sequence of [placeNumber], [togglePencilMark] and [reset] at cells of the
    grid. *)
Inductive reachable : Engine → Prop :=
| reach_init puzzle sol ok e :
    init new puzzle sol = Some (ok, e) → reachable e
| reach_again e0 puzzle sol ok e :
    reachable e0 → init e0 puzzle sol = Some (ok, e) → reachable e
| reach_place e row col num :
    reachable e → row < 9 → col < 9 →
    reachable (placeNumber e row col num).2
| reach_toggle e row col num :
    reachable e → row < 9 → col < 9 →
    reachable (togglePencilMark e row col num).2
| reach_reset e :
    reachable e → reachable (reset e).

(** The invariant: the pencil marks are a 9x9 array, and a filled cell has
    none. *)
Definition filled_cells_unmarked (e : Engine) : Prop :=
  wf_marks e
  ∧ ∀ r c, r < 9 → c < 9 → cell (grid e) r c ≠ 0 → marks e r c = ∅.

Lemma wf_marks_new : wf_marks new.
Proof. split; [reflexivity|]. cbn. repeat constructor. Qed.

Lemma init_unmarked e0 puzzle sol ok e :
  wf_marks e0 → init e0 puzzle sol = Some (ok, e) → filled_cells_unmarked e.
Proof.
  intros Hwf. unfold init.
  destruct (match sol with Some _ => _ | None => _ end) as [s|]; [|done].
  intros [= <- <-].
  match goal with |- filled_cells_unmarked (clearPencilMarks ?x) =>
    destruct (clearPencilMarks_spec x Hwf) as (Hwf' & _ & _ & _ & Hm) end.
  split; [done|]. intros r c Hr Hc _. by apply Hm.
Qed.

Lemma placeNumber_unmarked e row col num :
  row < 9 → col < 9 →
  filled_cells_unmarked e → filled_cells_unmarked (placeNumber e row col num).2.
Proof.
  intros Hrow Hcol [Hwf Hinv].
  destruct (decide (num = 0)) as [->|Hnum].
  - unfold placeNumber. destruct (negb _); [done|]. cbn [Nat.eqb snd].
    split; [done|]. intros r c Hr Hc. cbn [grid with_grid].
    unfold marks. cbn [pencilMarks with_grid]. fold (marks e r c).
    destruct (cell_setCell_cases (grid e) row col 0 r c) as [-> | ->];
      [done | by apply Hinv].
  - destruct (placeNumber e row col num) as [res e'] eqn:Hplace. cbn [snd].
    destruct (success res) eqn:Hok.
    + destruct (placeNumber_commit e row col num res e')
        as (Hwf' & Hgrid & _ & Hm); [done..|].
      split; [done|]. intros r c Hr Hc. rewrite Hm, Hgrid.
      case_decide as Heq; [done|]. rewrite cell_setCell_ne by done.
      intros Hfilled. rewrite (Hinv r c) by done. case_decide; set_solver.
    + destruct (placeNumber_rejected e row col num) as [Hsame _].
      { by rewrite Hplace. }
      rewrite Hplace in Hsame. cbn [snd] in Hsame. by subst e'.
Qed.

Lemma togglePencilMark_unmarked e row col num :
  row < 9 → col < 9 →
  filled_cells_unmarked e →
  filled_cells_unmarked (togglePencilMark e row col num).2.
Proof.
  intros Hrow Hcol [Hwf Hinv]. unfold togglePencilMark.
  case_decide as Hhas; cbn [snd].
  - split; [by apply wf2_set2|]. intros r c Hr Hc Hfilled.
    rewrite marks_removePencilMark by done.
    cbn [grid removePencilMark with_marks] in Hfilled.
    case_decide as Heq; [|by apply Hinv].
    injection Heq as -> ->. rewrite (Hinv row col) by done. set_solver.
  - unfold addPencilMark.
    destruct (cell (grid e) row col =? 0) eqn:Hz; cbn [snd]; [|done].
    apply Nat.eqb_eq in Hz.
    split; [by apply wf2_set2|]. intros r c Hr Hc Hfilled.
    cbn [grid with_marks] in Hfilled.
    unfold marks. cbn [pencilMarks with_marks].
    rewrite at2_set2_ne; [by apply Hinv|].
    intros [= -> ->]. done.
Qed.

Lemma reset_unmarked e :
  filled_cells_unmarked e → filled_cells_unmarked (reset e).
Proof.
  intros [Hwf Hinv]. unfold reset.
  destruct (clearPencilMarks_spec (with_grid e (deepCopy (initialGrid e))))
    as (Hwf' & _ & _ & _ & Hm); [done|].
  split; [done|]. intros r c Hr Hc _. by apply Hm.
Qed.

Lemma reachable_unmarked e : reachable e → filled_cells_unmarked e.
Proof.
  induction 1 as [puzzle sol ok e Hinit
                 | e0 puzzle sol ok e _ [Hwf _] Hinit
                 | e row col num _ IH Hrow Hcol
                 | e row col num _ IH Hrow Hcol
                 | e _ IH].
  - eapply init_unmarked; [apply wf_marks_new | done].
  - by eapply init_unmarked.
  - by apply placeNumber_unmarked.
  - by apply togglePencilMark_unmarked.
  - by apply reset_unmarked.
Qed.

(** C10.  In every state reached from [init] by [placeNumber],
    [togglePencilMark] and [reset], a cell holding a non-zero value has no
    pencil marks. *)
Theorem C10_filled_cells_have_no_pencil_marks e r c :
  reachable e → r < 9 → c < 9 →
  cell (grid e) r c ≠ 0 → marks e r c = ∅.
Proof. intros Hreach. by apply reachable_unmarked. Qed.

Lemma C10_witness :
  marks (placeNumber (togglePencilMark sessionB 8 8 4).2 8 8 9).2 8 8 = ∅.
Proof.
  apply C10_filled_cells_have_no_pencil_marks.
  - apply reach_place; [|lia|lia]. apply reach_toggle; [|lia|lia].
    exact (reach_init scenarioB (Some scenarioA) true sessionB init_sessionB).
  - lia.
  - lia.
  - vm_compute. discriminate.
Defined.

(** ** Counting empty cells *)

Lemma NoDup_allPositions : NoDup allPositions.
Proof. apply (bool_decide_unpack _). vm_compute. exact I. Qed.

Lemma filter_agree {A} (P Q : A → Prop)
    `{!∀ x, Decision (P x)} `{!∀ x, Decision (Q x)} (l : list A) :
  (∀ y, y ∈ l → (P y ↔ Q y)) → filter P l = filter Q l.
Proof.
  induction l as [|y l IH]; intros Hagree; [done|].
  rewrite !filter_cons.
  pose proof (Hagree y (list_elem_of_here _ _)) as Hy.
  rewrite IH by (intros z Hz; apply Hagree; by apply list_elem_of_further).
  destruct (decide (P y)), (decide (Q y)); tauto.
Qed.

Lemma filter_one_less {A} (P Q : A → Prop)
    `{!∀ x, Decision (P x)} `{!∀ x, Decision (Q x)} (l : list A) x :
  NoDup l → x ∈ l → P x → ¬ Q x → (∀ y, y ≠ x → (P y ↔ Q y)) →
  length (filter P l) = S (length (filter Q l)).
Proof.
  intros Hnd Hin HP HQ Hagree.
  apply list_elem_of_split in Hin as (l1 & l2 & ->).
  apply NoDup_app in Hnd as (_ & Hl1 & [Hl2 _]%NoDup_cons).
  rewrite !filter_app, !filter_cons, decide_True, decide_False by done.
  rewrite (filter_agree P Q l1), (filter_agree P Q l2).
  - rewrite !length_app. cbn [length]. lia.
  - intros y Hy. apply Hagree. by intros ->.
  - intros y Hy. apply Hagree. intros ->. by apply (Hl1 x); [|left].
Qed.

Lemma countEmpty_setCell g row col v :
  wf_grid g → row < 9 → col < 9 → cell g row col = 0 → v ≠ 0 →
  countEmpty g = S (countEmpty (setCell g row col v)).
Proof.
  intros Hwf Hrow Hcol Hz Hv. unfold countEmpty.
  apply (filter_one_less _ _ allPositions (row, col)).
  - apply NoDup_allPositions.
  - by apply elem_of_allPositions.
  - done.
  - cbn [fst snd]. by rewrite cell_setCell_eq.
  - intros [r c] Hne. cbn [fst snd]. by rewrite cell_setCell_ne.
Qed.

Lemma setCell_undo g row col v :
  cell g row col = 0 → setCell (setCell g row col v) row col 0 = g.
Proof. intros <-. apply setCell_restore. Qed.

Lemma find_empty_Some g row col :
  find (λ '(row, col), cell g row col =? 0) allPositions = Some (row, col) →
  row < 9 ∧ col < 9 ∧ cell g row col = 0.
Proof.
  intros [Hin Hz]%find_some.
  apply list_elem_of_In, elem_of_allPositions in Hin as [? ?].
  by apply Nat.eqb_eq in Hz.
Qed.

Lemma find_empty_None g :
  find (λ '(row, col), cell g row col =? 0) allPositions = None →
  ∀ row col, row < 9 → col < 9 → cell g row col ≠ 0.
Proof.
  intros Hnone row col Hrow Hcol.
  pose proof (find_none _ _ Hnone (row, col)) as Hz. cbn beta iota in Hz.
  apply Nat.eqb_neq, Hz, list_elem_of_In. by apply elem_of_allPositions.
Qed.

(** ** The solver of the engine returns *)

(** A call of the search returned, and a failed call left the grid as it
    found it. *)
Definition solver_returns (g : Grid) (res : option (bool * Grid)) : Prop :=
  ∃ b g', res = Some (b, g') ∧ (b = false → g' = g) ∧ wf_grid g'.

Lemma tryAscending_returns rec row col n g :
  (∀ g1, wf_grid g1 → countEmpty g1 < n → solver_returns g1 (rec g1)) →
  wf_grid g → row < 9 → col < 9 → cell g row col = 0 → countEmpty g ≤ n →
  ∀ nums, (∀ x, x ∈ nums → x ≠ 0) →
  solver_returns g (tryAscending rec row col nums g).
Proof.
  intros Hrec Hwf Hrow Hcol Hz Hcount nums.
  induction nums as [|num rest IH]; intros Hnums; cbn [tryAscending].
  - by exists false, g.
  - assert (∀ x, x ∈ rest → x ≠ 0) as Hrest
      by (intros x Hx; apply Hnums; by apply list_elem_of_further).
    destruct (isValidMoveForGrid g row col num); [|by apply IH].
    assert (num ≠ 0) as Hnum by apply Hnums, list_elem_of_here.
    destruct (Hrec (setCell g row col num)) as (b & g' & -> & Hfail & Hwf').
    { by apply wf_grid_setCell. }
    { pose proof (countEmpty_setCell g row col num Hwf Hrow Hcol Hz Hnum).
      lia. }
    destruct b.
    + by exists true, g'.
    + rewrite Hfail, setCell_undo by done. by apply IH.
Qed.

Lemma solveRecursive_returns fuel g :
  wf_grid g → countEmpty g < fuel →
  solver_returns g (solveRecursive fuel g).
Proof.
  revert g. induction fuel as [|fuel IH]; intros g Hwf Hfuel; [lia|].
  cbn [solveRecursive]. unfold SudokuEngine.firstEmpty.
  destruct (find _ allPositions) as [[row col]|] eqn:Hfind.
  - apply find_empty_Some in Hfind as (Hrow & Hcol & Hz).
    apply (tryAscending_returns _ row col fuel); try done; try lia.
    intros x Hx%elem_of_seq. lia.
  - by exists true, g.
Qed.

Lemma countEmpty_bound g : countEmpty g ≤ 81.
Proof. pose proof (filled_plus_empty g). lia. Qed.

Lemma solvePuzzle_returns g :
  wf_grid g →
  (∃ sol, solvePuzzle g = Some (Some sol)
          ∧ solveRecursive SudokuEngine.searchDepth g = Some (true, sol))
  ∨ (solvePuzzle g = Some None
     ∧ solveRecursive SudokuEngine.searchDepth g = Some (false, g)).
Proof.
  intros Hwf. unfold solvePuzzle. rewrite deepCopy_id.
  destruct (solveRecursive_returns SudokuEngine.searchDepth g Hwf)
    as (b & g' & Hres & Hfail & _).
  { pose proof (countEmpty_bound g). unfold SudokuEngine.searchDepth. lia. }
  rewrite Hres. destruct b; [left; by exists g'|right].
  by rewrite Hfail.
Qed.

(** ** Completion check *)

Lemma revalidateCell_restores e p : (revalidateCell e p).2 = e.
Proof.
  destruct p as [row col], e as [g sol init pm]. unfold revalidateCell.
  cbn [grid with_grid solution initialGrid pencilMarks].
  destruct (negb _); cbn [snd]; [|done].
  by rewrite setCell_restore.
Qed.

Lemma revalidateFrom_restores ps e : (revalidateFrom ps e).2 = e.
Proof.
  induction ps as [|p ps IH]; [done|]. cbn [revalidateFrom].
  pose proof (revalidateCell_restores e p) as Hcell.
  destruct (revalidateCell e p) as [ok e']. cbn [snd] in Hcell. subst e'.
  by destruct ok.
Qed.

Lemma revalidateCell_given e row col :
  cell (initialGrid e) row col ≠ 0 → cell (grid e) row col ≠ 0 →
  (revalidateCell e (row, col)).1 = false.
Proof.
  intros Hgiven%Nat.eqb_neq Hfilled%Nat.eqb_neq. unfold revalidateCell.
  rewrite Hfilled. cbn [negb fst]. unfold isValidMove.
  cbn [initialGrid with_grid]. by rewrite Hgiven.
Qed.

Lemma revalidateFrom_given ps e row col :
  (row, col) ∈ ps →
  cell (initialGrid e) row col ≠ 0 → cell (grid e) row col ≠ 0 →
  (revalidateFrom ps e).1 = false.
Proof.
  intros Hin Hgiven Hfilled. induction ps as [|p ps IH];
    [by apply elem_of_nil in Hin|].
  cbn [revalidateFrom].
  pose proof (revalidateCell_restores e p) as Hsame.
  destruct (revalidateCell e p) as [ok e'] eqn:Hcell. cbn [snd] in Hsame.
  subst e'. destruct ok; [|done].
  apply elem_of_cons in Hin as [<- | Hin]; [|by apply IH].
  pose proof (revalidateCell_given e row col Hgiven Hfilled) as Hno.
  by rewrite Hcell in Hno.
Qed.

(** [isSolved] is false in every session that has a given cell: the
    re-validation asks [isValidMove], which refuses given cells. *)
Lemma isSolved_false_with_given e row col :
  row < 9 → col < 9 →
  cell (initialGrid e) row col ≠ 0 → cell (grid e) row col ≠ 0 →
  (isSolved e).1 = false.
Proof.
  intros Hrow Hcol Hgiven Hfilled. unfold isSolved, isValidSolution.
  destruct (existsb _ _); [done|].
  apply (revalidateFrom_given _ _ row col); [|done..].
  by apply elem_of_allPositions.
Qed.

(** C1.  After [init] with the complete grid of scenario A, every cell is
    non-zero and the grid passes the cell-by-cell consistency check of
    [lambda/index.js], yet [isSolved] returns false. *)
Theorem C1_isSolved_false_on_complete_grid :
  ∃ e, init new scenarioA None = Some (true, e)
       ∧ grid e = scenarioA
       ∧ initialGrid e = scenarioA
       ∧ solution e = Some scenarioA
       ∧ existsb (λ '(row, col), cell (grid e) row col =? 0) allPositions
         = false
       ∧ (Lambda.isValidPuzzleState (grid e)).1 = true
       ∧ (isSolved e).1 = false.
Proof.
  eexists. split; [reflexivity|]. split_and!; reflexivity.
Qed.

(** ** Initialising a session *)

Lemma clearAt_fields ps e :
  grid (clearAt e ps) = grid e
  ∧ initialGrid (clearAt e ps) = initialGrid e
  ∧ solution (clearAt e ps) = solution e.
Proof.
  revert e. induction ps as [|[pr pc] ps IH]; intros e; [done|].
  unfold clearAt in *. cbn [foldl].
  by destruct (IH (clearPencilMarksForCell e pr pc)) as (-> & -> & ->).
Qed.

(** C2, counterexample.  The puzzle [deadEnd] has no completion: the solver
    fails on it, and [init] without a solution still returns [true], with the
    puzzle installed as grid and [null] stored as the solution. *)
Lemma C2_init_accepts_unsolvable_puzzle :
  solvePuzzle deadEnd = Some None
  ∧ ∃ e, init new deadEnd None = Some (true, e)
         ∧ grid e = deadEnd ∧ initialGrid e = deadEnd ∧ solution e = None.
Proof.
  split; [reflexivity|]. eexists. split; [reflexivity|].
  split_and!; reflexivity.
Qed.

(** C2, amended.  [init] without a solution never fails: for every 9x9 puzzle
    it returns [true] with the puzzle as grid and as given mask, and stores
    what the solver returned, which is [null] when the search fails. *)
Theorem C2_init_never_fails e0 puzzle :
  wf_grid puzzle →
  ∃ e, init e0 puzzle None = Some (true, e)
       ∧ grid e = puzzle
       ∧ initialGrid e = puzzle
       ∧ solvePuzzle puzzle = Some (solution e)
       ∧ (solveRecursive SudokuEngine.searchDepth puzzle = Some (false, puzzle)
          → solution e = None).
Proof.
  intros Hwf. unfold init. rewrite !deepCopy_id.
  destruct (solvePuzzle_returns puzzle Hwf)
    as [(sol & Hsolved & Hrec) | [Hsolved Hrec]]; rewrite Hsolved;
    eexists; (split; [reflexivity|]); unfold clearPencilMarks;
    match goal with |- context [foldl _ ?x allPositions] =>
      fold (clearAt x allPositions);
      destruct (clearAt_fields allPositions x) as (-> & -> & ->) end;
    cbn [grid initialGrid solution]; split_and!; try done.
  rewrite Hrec. done.
Qed.

Lemma wf_grid_deadEnd : wf_grid deadEnd.
Proof. split; [reflexivity|]. unfold deadEnd. repeat constructor. Qed.

Lemma C2_witness :
  ∃ e, init new deadEnd None = Some (true, e)
       ∧ grid e = deadEnd
       ∧ initialGrid e = deadEnd
       ∧ solvePuzzle deadEnd = Some (solution e)
       ∧ (solveRecursive SudokuEngine.searchDepth deadEnd
            = Some (false, deadEnd)
          → solution e = None).
Proof.
  apply (C2_init_never_fails new deadEnd).
  split; [reflexivity|]. unfold deadEnd. repeat constructor.
Defined.

(** ** Shuffling *)

Lemma insert_head_Permutation {A} (l : list A) i x y :
  l !! i = Some y → y :: <[i := x]> l ≡ₚ x :: l.
Proof.
  revert i. induction l as [|a l IH]; intros [|i] Hi; simplify_eq/=.
  - apply perm_swap.
  - rewrite perm_swap. rewrite (IH i Hi). apply perm_swap.
Qed.

Lemma swap_Permutation {A} (l : list A) i j : swap l i j ≡ₚ l.
Proof.
  unfold swap.
  destruct (l !! i) as [ai|] eqn:Hi; [|done].
  destruct (l !! j) as [aj|] eqn:Hj; [|done].
  destruct (decide (i = j)) as [->|Hne].
  { simplify_eq. rewrite list_insert_insert_eq. by rewrite list_insert_id. }
  revert i j Hi Hj Hne.
  induction l as [|a l IH]; intros [|i] [|j] Hi Hj Hne; simplify_eq/=.
  - by apply insert_head_Permutation.
  - by apply insert_head_Permutation.
  - f_equiv. apply IH; [done | done | lia].
Qed.

Lemma shuffleFrom_Permutation {A} i (l : list A) rng :
  (shuffleFrom i l rng).1 ≡ₚ l.
Proof.
  revert l rng. induction i as [|i IH]; intros l rng; [done|].
  cbn [shuffleFrom]. destruct (randomBelow _ _) as [j rng'].
  rewrite IH. apply swap_Permutation.
Qed.

Lemma shuffleArray_Permutation {A} (l : list A) rng :
  (shuffleArray l rng).1 ≡ₚ l.
Proof. apply shuffleFrom_Permutation. Qed.

(** ** Valid placements *)

Lemma peer_sym row col r c : peer row col r c → peer r c row col.
Proof. unfold peer. naive_solver. Qed.

Lemma isValidPlacement_true g row col num :
  row < 9 → col < 9 →
  isValidPlacement g row col num = true ↔
  ∀ r c, r < 9 → c < 9 → peer row col r c → cell g r c ≠ num.
Proof.
  intros Hrow Hcol. unfold isValidPlacement.
  destruct (existsb (λ x, cell g row x =? num) (seq 0 9)) eqn:Hr.
  { split; [done|]. intros Hfree.
    apply existsb_elem_of in Hr as (x & Hx%elem_of_seq & Heq%Nat.eqb_eq).
    exfalso. apply (Hfree row x); [lia.. | by left | done]. }
  destruct (existsb (λ x, cell g x col =? num) (seq 0 9)) eqn:Hc.
  { split; [done|]. intros Hfree.
    apply existsb_elem_of in Hc as (x & Hx%elem_of_seq & Heq%Nat.eqb_eq).
    exfalso. apply (Hfree x col); [lia.. | by right; left | done]. }
  destruct (existsb _ (boxPositions row col)) eqn:Hb.
  { split; [done|]. intros Hfree.
    apply existsb_elem_of in Hb as ([i j] & Hin & Heq%Nat.eqb_eq).
    pose proof (boxPositions_in_range _ _ _ _ Hrow Hcol Hin) as [? ?].
    apply elem_of_boxPositions in Hin.
    exfalso. apply (Hfree i j); [lia.. | by right; right | done]. }
  split; [|done]. intros _ r c Hrr Hcc Hpeer.
  rewrite existsb_false_elem_of in Hr. rewrite existsb_false_elem_of in Hc.
  rewrite existsb_false_elem_of in Hb.
  destruct Hpeer as [-> | [-> | Hbox]].
  - apply Nat.eqb_neq, (Hr c), elem_of_seq. lia.
  - apply Nat.eqb_neq, (Hc r), elem_of_seq. lia.
  - apply Nat.eqb_neq, (Hb (r, c)). by apply elem_of_boxPositions.
Qed.

(** No two distinct cells of a row, column or box hold the same non-zero
    value, and every value is at most 9. *)
Definition consistent (g : Grid) : Prop :=
  (∀ r c, r < 9 → c < 9 → cell g r c ≤ 9)
  ∧ ∀ r c r' c', r < 9 → c < 9 → r' < 9 → c' < 9 →
      (r', c') ≠ (r, c) → peer r c r' c' →
      cell g r c ≠ 0 → cell g r' c' ≠ cell g r c.

Definition full (g : Grid) : Prop :=
  ∀ r c, r < 9 → c < 9 → cell g r c ≠ 0.

(** [s] completes [g]: a full consistent grid that keeps the clues of [g]. *)
Definition completes (g s : Grid) : Prop :=
  consistent s ∧ full s
  ∧ ∀ r c, r < 9 → c < 9 → cell g r c ≠ 0 → cell s r c = cell g r c.

Lemma consistent_setCell g row col num :
  wf_grid g → row < 9 → col < 9 → 1 ≤ num ≤ 9 →
  isValidPlacement g row col num = true →
  consistent g → consistent (setCell g row col num).
Proof.
  intros Hwf Hrow Hcol Hnum Hvalid [Hrange Hdistinct].
  rewrite isValidPlacement_true in Hvalid by done. split.
  - intros r c Hr Hc.
    destruct (decide ((r, c) = (row, col))) as [[= -> ->]|Hne].
    + rewrite cell_setCell_eq by done. lia.
    + rewrite cell_setCell_ne by done. by apply Hrange.
  - intros r c r' c' Hr Hc Hr' Hc' Hne Hpeer.
    destruct (decide ((r, c) = (row, col))) as [[= -> ->]|Hne1].
    + rewrite cell_setCell_eq, cell_setCell_ne by done.
      intros _. by apply Hvalid.
    + rewrite (cell_setCell_ne _ _ _ _ r c) by done.
      destruct (decide ((r', c') = (row, col))) as [[= -> ->]|Hne2].
      * rewrite cell_setCell_eq by done. intros _ Heq.
        apply (Hvalid r c); [done.. | by apply peer_sym | done].
      * rewrite cell_setCell_ne by done. by apply Hdistinct.
Qed.

Lemma completes_valid g s row col :
  row < 9 → col < 9 → cell g row col = 0 → completes g s →
  isValidPlacement g row col (cell s row col) = true.
Proof.
  intros Hrow Hcol Hz ([_ Hdistinct] & Hfull & Hkeeps).
  apply isValidPlacement_true; [done..|]. intros r c Hr Hc Hpeer Heq.
  pose proof (Hfull row col Hrow Hcol) as Hv.
  assert (cell s r c = cell g r c) as Hs by (apply Hkeeps; [done..|lia]).
  apply (Hdistinct row col r c); try done; [|congruence].
  intros [= -> ->]. congruence.
Qed.

Lemma completes_setCell g s row col :
  wf_grid g → row < 9 → col < 9 → completes g s →
  completes (setCell g row col (cell s row col)) s.
Proof.
  intros Hwf Hrow Hcol (Hcons & Hfull & Hkeeps). split_and!; [done..|].
  intros r c Hr Hc.
  destruct (decide ((r, c) = (row, col))) as [[= -> ->]|Hne].
  - by rewrite cell_setCell_eq.
  - rewrite cell_setCell_ne by done. by apply Hkeeps.
Qed.

Lemma completes_digit g s row col :
  row < 9 → col < 9 → completes g s → 1 ≤ cell s row col ≤ 9.
Proof.
  intros Hrow Hcol ([Hrange _] & Hfull & _).
  pose proof (Hrange row col Hrow Hcol). pose proof (Hfull row col Hrow Hcol).
  lia.
Qed.

(** ** The search of the generator *)

(** What a call of the search on [g] does: it returns; a failed call leaves
    the grid as it found it; a successful call leaves a full 9x9 grid, which is
    consistent if [g] was; and the call succeeds whenever [must] holds. *)
Definition fill_returns (g : Grid) (must : Prop)
    (res : option (bool * Grid * Rng)) : Prop :=
  ∃ b g' rng',
    res = Some (b, g', rng')
    ∧ (b = false → g' = g)
    ∧ (b = true → wf_grid g' ∧ full g' ∧ (consistent g → consistent g'))
    ∧ (must → b = true).

Lemma tryNumbers_returns rec row col n g :
  (∀ g1 rng1, wf_grid g1 → countEmpty g1 < n →
              fill_returns g1 (∃ s, completes g1 s) (rec g1 rng1)) →
  wf_grid g → row < 9 → col < 9 → cell g row col = 0 → countEmpty g ≤ n →
  ∀ numbers rng, (∀ x, x ∈ numbers → 1 ≤ x ≤ 9) →
  fill_returns g (∃ s, completes g s ∧ cell s row col ∈ numbers)
    (tryNumbers rec row col numbers g rng).
Proof.
  intros Hrec Hwf Hrow Hcol Hz Hcount numbers.
  induction numbers as [|num rest IH]; intros rng Hdigits; cbn [tryNumbers].
  - exists false, g, rng. split_and!; try done.
    intros (s & _ & Hin). by apply elem_of_nil in Hin.
  - assert (∀ x, x ∈ rest → 1 ≤ x ≤ 9) as Hrest
      by (intros x Hx; apply Hdigits; by apply list_elem_of_further).
    assert (1 ≤ num ≤ 9) as Hnum by apply Hdigits, list_elem_of_here.
    destruct (isValidPlacement g row col num) eqn:Hvalid.
    + destruct (Hrec (setCell g row col num) rng)
        as (b & g' & rng' & -> & Hfail & Hdone & Hmust).
      { by apply wf_grid_setCell. }
      { pose proof (countEmpty_setCell g row col num Hwf Hrow Hcol Hz).
        lia. }
      destruct b.
      * exists true, g', rng'. split_and!; try done.
        intros _. destruct (Hdone eq_refl) as (Hwf' & Hfull' & Hcons').
        split_and!; [done..|]. intros Hcons.
        by apply Hcons', consistent_setCell.
      * rewrite Hfail, setCell_undo by done.
        destruct (IH rng' Hrest) as (b & g2 & rng2 & -> & Hfail2 & Hdone2 & Hmust2).
        exists b, g2, rng2. split_and!; try done.
        intros (s & Hs & Hin). apply Hmust2. exists s. split; [done|].
        apply elem_of_cons in Hin as [Heq | Hin]; [|done].
        exfalso. assert (false = true); [|done]. apply Hmust.
        exists s. rewrite <-Heq. by apply completes_setCell.
    + destruct (IH rng Hrest) as (b & g2 & rng2 & -> & Hfail2 & Hdone2 & Hmust2).
      exists b, g2, rng2. split_and!; try done.
      intros (s & Hs & Hin). apply Hmust2. exists s. split; [done|].
      apply elem_of_cons in Hin as [Heq | Hin]; [|done].
      exfalso. pose proof (completes_valid g s row col Hrow Hcol Hz Hs).
      congruence.
Qed.

Lemma fillGrid_returns fuel g rng :
  wf_grid g → countEmpty g < fuel →
  fill_returns g (∃ s, completes g s) (fillGrid fuel g rng).
Proof.
  revert g rng. induction fuel as [|fuel IH]; intros g rng Hwf Hfuel; [lia|].
  cbn [fillGrid]. unfold SudokuGenerator.firstEmpty.
  destruct (find _ allPositions) as [[row col]|] eqn:Hfind.
  - apply find_empty_Some in Hfind as (Hrow & Hcol & Hz).
    pose proof (shuffleArray_Permutation (seq 1 9) rng) as Hperm.
    destruct (shuffleArray (seq 1 9) rng) as [numbers rng1]. cbn [fst] in Hperm.
    destruct (tryNumbers_returns (fillGrid fuel) row col fuel g IH Hwf Hrow
                Hcol Hz ltac:(lia) numbers rng1)
      as (b & g' & rng' & Hres & Hfail & Hdone & Hmust).
    { intros x Hx. rewrite Hperm in Hx. apply elem_of_seq in Hx. lia. }
    exists b, g', rng'. split_and!; try done.
    intros (s & Hs). apply Hmust. exists s. split; [done|].
    rewrite Hperm. apply elem_of_seq.
    pose proof (completes_digit g s row col Hrow Hcol Hs). lia.
  - exists true, g, rng. split_and!; try done. intros _.
    split_and!; [done | | done]. exact (find_empty_None g Hfind).
Qed.

(** ** Complete grids *)

#[local] Instance peer_dec row col r c : Decision (peer row col r c).
Proof. unfold peer. apply _. Defined.

Lemma consistent_scenarioA : consistent scenarioA.
Proof.
  assert (Forall (λ p,
            cell scenarioA p.1 p.2 ≤ 9
            ∧ Forall (λ q, q ≠ p → peer p.1 p.2 q.1 q.2 →
                           cell scenarioA p.1 p.2 ≠ 0 →
                           cell scenarioA q.1 q.2 ≠ cell scenarioA p.1 p.2)
                allPositions) allPositions) as Hall.
  { apply (bool_decide_unpack _). vm_compute. exact I. }
  rewrite Forall_forall in Hall. split.
  - intros r c Hr Hc.
    by destruct (Hall (r, c)) as [? _]; [by apply elem_of_allPositions|].
  - intros r c r' c' Hr Hc Hr' Hc'.
    destruct (Hall (r, c)) as [_ Hq]; [by apply elem_of_allPositions|].
    rewrite Forall_forall in Hq.
    apply (Hq (r', c')). by apply elem_of_allPositions.
Qed.

Lemma full_scenarioA : full scenarioA.
Proof.
  assert (Forall (λ p, cell scenarioA p.1 p.2 ≠ 0) allPositions) as Hall.
  { apply (bool_decide_unpack _). vm_compute. exact I. }
  rewrite Forall_forall in Hall. intros r c Hr Hc.
  apply (Hall (r, c)). by apply elem_of_allPositions.
Qed.

Lemma cell_emptyGrid r c : r < 9 → c < 9 → cell emptyGrid r c = 0.
Proof.
  assert (Forall (λ p, cell emptyGrid p.1 p.2 = 0) allPositions) as Hall.
  { apply (bool_decide_unpack _). vm_compute. exact I. }
  rewrite Forall_forall in Hall. intros Hr Hc.
  apply (Hall (r, c)). by apply elem_of_allPositions.
Qed.

Lemma wf_grid_emptyGrid : wf_grid emptyGrid.
Proof. split; [reflexivity|]. cbn. repeat constructor. Qed.

Lemma consistent_emptyGrid : consistent emptyGrid.
Proof.
  split.
  - intros r c Hr Hc. rewrite cell_emptyGrid by done. lia.
  - intros r c r' c' Hr Hc _ _ _ _. by rewrite cell_emptyGrid.
Qed.

(** The empty grid has a completion. *)
Lemma emptyGrid_completes : completes emptyGrid scenarioA.
Proof.
  split_and!; [apply consistent_scenarioA | apply full_scenarioA |].
  intros r c Hr Hc. by rewrite cell_emptyGrid.
Qed.

(** The values of nine distinct, mutually constraining cells of a full
    consistent grid are the digits 1..9. *)
Lemma unit_Permutation g (us : list (nat * nat)) :
  consistent g → full g → NoDup us → length us = 9 →
  (∀ p, p ∈ us → p.1 < 9 ∧ p.2 < 9) →
  (∀ p q, p ∈ us → q ∈ us → peer p.1 p.2 q.1 q.2) →
  (λ p, cell g p.1 p.2) <$> us ≡ₚ seq 1 9.
Proof.
  intros [Hrange Hdistinct] Hfull Hnd Hlen Hin Hpeers.
  apply submseteq_length_Permutation.
  - apply NoDup_submseteq.
    + apply NoDup_fmap_2_strong; [|done].
      intros [r c] [r' c'] Hp Hq Heq. cbn [fst snd] in Heq.
      destruct (Hin _ Hp) as [Hr Hc], (Hin _ Hq) as [Hr' Hc'].
      cbn [fst snd] in *.
      destruct (decide ((r', c') = (r, c))) as [|Hne]; [done|].
      exfalso. apply (Hdistinct r c r' c'); try done.
      * apply (Hpeers (r, c) (r', c')); done.
      * by apply Hfull.
    + intros x ([r c] & -> & Hp)%list_elem_of_fmap.
      destruct (Hin _ Hp) as [Hr Hc]. cbn [fst snd] in *.
      pose proof (Hrange r c Hr Hc). pose proof (Hfull r c Hr Hc).
      apply elem_of_seq. lia.
  - rewrite length_fmap, length_seq. lia.
Qed.

Lemma boxPositions_NoDup row col : NoDup (boxPositions row col).
Proof.
  unfold boxPositions. generalize (row / 3 * 3) (col / 3 * 3). intros a b.
  cbn.
  repeat (apply NoDup_cons_2;
          [rewrite ?elem_of_cons, elem_of_nil; intros Hx;
           repeat (destruct Hx as [Hx|Hx]); try done; injection Hx; lia|]).
  apply NoDup_nil_2.
Qed.

Lemma boxPositions_length row col : length (boxPositions row col) = 9.
Proof. done. Qed.

Lemma complete_units g :
  consistent g → full g →
  (∀ r, r < 9 → (λ c, cell g r c) <$> seq 0 9 ≡ₚ seq 1 9)
  ∧ (∀ c, c < 9 → (λ r, cell g r c) <$> seq 0 9 ≡ₚ seq 1 9)
  ∧ (∀ r c, r < 9 → c < 9 →
            (λ p, cell g p.1 p.2) <$> boxPositions r c ≡ₚ seq 1 9).
Proof.
  intros Hcons Hfull. split_and!.
  - intros r Hr.
    change ((λ p, cell g p.1 p.2) ∘ (λ c, (r, c)) <$> seq 0 9 ≡ₚ seq 1 9).
    rewrite list_fmap_compose.
    apply unit_Permutation; try done.
    + apply NoDup_fmap_2_strong; [|apply NoDup_seq]. by intros x y _ _ [= ->].
    + intros p (x & -> & Hx%elem_of_seq)%list_elem_of_fmap. cbn. lia.
    + intros p q (x & -> & _)%list_elem_of_fmap (y & -> & _)%list_elem_of_fmap.
      by left.
  - intros c Hc.
    change ((λ p, cell g p.1 p.2) ∘ (λ r, (r, c)) <$> seq 0 9 ≡ₚ seq 1 9).
    rewrite list_fmap_compose.
    apply unit_Permutation; try done.
    + apply NoDup_fmap_2_strong; [|apply NoDup_seq]. by intros x y _ _ [= ->].
    + intros p (x & -> & Hx%elem_of_seq)%list_elem_of_fmap. cbn. lia.
    + intros p q (x & -> & _)%list_elem_of_fmap (y & -> & _)%list_elem_of_fmap.
      by right; left.
  - intros r c Hr Hc.
    apply unit_Permutation; try done.
    + apply boxPositions_NoDup.
    + intros [i j] Hp. by apply (boxPositions_in_range r c).
    + intros [i j] [i' j'] [? ?]%elem_of_boxPositions
        [? ?]%elem_of_boxPositions.
      right; right. cbn [fst snd]. split; congruence.
Qed.

(** C4.  [generateCompletePuzzle] returns for every run of the random
    source, [fillGrid] reports success, and the grid is 9x9 with every row,
    every column and every 3x3 box a permutation of 1..9. *)
Theorem C4_generateCompletePuzzle_complete_and_valid rng :
  ∃ g rng',
    generateCompletePuzzle rng = Some (true, g, rng')
    ∧ wf_grid g
    ∧ (∀ r, r < 9 → (λ c, cell g r c) <$> seq 0 9 ≡ₚ seq 1 9)
    ∧ (∀ c, c < 9 → (λ r, cell g r c) <$> seq 0 9 ≡ₚ seq 1 9)
    ∧ (∀ r c, r < 9 → c < 9 →
              (λ p, cell g p.1 p.2) <$> boxPositions r c ≡ₚ seq 1 9).
Proof.
  unfold generateCompletePuzzle.
  destruct (fillGrid_returns SudokuGenerator.searchDepth emptyGrid rng)
    as (b & g & rng' & Hres & _ & Hdone & Hmust).
  { apply wf_grid_emptyGrid. }
  { pose proof (countEmpty_bound emptyGrid).
    unfold SudokuGenerator.searchDepth. lia. }
  assert (b = true) as -> by (apply Hmust; eexists; apply emptyGrid_completes).
  destruct (Hdone eq_refl) as (Hwf & Hfull & Hcons).
  exists g, rng'. split; [done|]. split; [done|].
  apply complete_units; [|done]. apply Hcons, consistent_emptyGrid.
Qed.

(** * Further properties of the engine *)

(** ** The move validator *)

Lemma isValidMove_true e row col num :
  row < 9 → col < 9 →
  isValidMove e row col num = true ↔
  cell (initialGrid e) row col = 0
  ∧ ∀ r c, r < 9 → c < 9 → (r, c) ≠ (row, col) → peer row col r c →
           cell (grid e) r c ≠ num.
Proof.
  intros Hrow Hcol. unfold isValidMove.
  destruct (cell (initialGrid e) row col =? 0) eqn:Hgiven; cbn [negb].
  2:{ apply Nat.eqb_neq in Hgiven. split; [done|]. by intros [? _]. }
  apply Nat.eqb_eq in Hgiven.
  destruct (existsb (λ x, negb (x =? col) && (cell (grid e) row x =? num))
              (seq 0 9)) eqn:Hr.
  { split; [done|]. intros [_ Hfree].
    apply existsb_elem_of in Hr as (x & Hx%elem_of_seq & Hhit).
    apply andb_true_iff in Hhit as [Hne%negb_true_iff%Nat.eqb_neq Heq%Nat.eqb_eq].
    exfalso. apply (Hfree row x); [lia.. | congruence | by left | done]. }
  destruct (existsb (λ x, negb (x =? row) && (cell (grid e) x col =? num))
              (seq 0 9)) eqn:Hc.
  { split; [done|]. intros [_ Hfree].
    apply existsb_elem_of in Hc as (x & Hx%elem_of_seq & Hhit).
    apply andb_true_iff in Hhit as [Hne%negb_true_iff%Nat.eqb_neq Heq%Nat.eqb_eq].
    exfalso. apply (Hfree x col); [lia.. | congruence | by right; left | done]. }
  destruct (existsb _ (boxPositions row col)) eqn:Hb.
  { split; [done|]. intros [_ Hfree].
    apply existsb_elem_of in Hb as ([i j] & Hin & Hhit).
    apply andb_true_iff in Hhit as [Hne Heq%Nat.eqb_eq].
    pose proof (boxPositions_in_range _ _ _ _ Hrow Hcol Hin) as [? ?].
    apply elem_of_boxPositions in Hin.
    exfalso. apply (Hfree i j); [lia.. | | by right; right | done].
    intros [= -> ->]. by rewrite !Nat.eqb_refl in Hne. }
  split; [|done]. intros _. split; [done|]. intros r c Hrr Hcc Hne Hpeer.
  rewrite existsb_false_elem_of in Hr. rewrite existsb_false_elem_of in Hc.
  rewrite existsb_false_elem_of in Hb.
  assert (r ≠ row ∨ c ≠ col) as Hdiff.
  { destruct (decide (r = row)) as [->|]; [|by left].
    right. intros ->. done. }
  destruct Hpeer as [-> | [-> | Hbox]].
  - specialize (Hr c ltac:(apply elem_of_seq; lia)).
    apply andb_false_iff in Hr as [Hr%negb_false_iff%Nat.eqb_eq | Hr];
      [|by apply Nat.eqb_neq]. destruct Hdiff; done.
  - specialize (Hc r ltac:(apply elem_of_seq; lia)).
    apply andb_false_iff in Hc as [Hc%negb_false_iff%Nat.eqb_eq | Hc];
      [|by apply Nat.eqb_neq]. destruct Hdiff; done.
  - specialize (Hb (r, c) ltac:(by apply elem_of_boxPositions)).
    cbn beta iota in Hb.
    apply andb_false_iff in Hb as [Hb | Hb]; [|by apply Nat.eqb_neq].
    apply orb_false_iff in Hb
      as [Hb1%negb_false_iff%Nat.eqb_eq Hb2%negb_false_iff%Nat.eqb_eq].
    destruct Hdiff; done.
Qed.

(** X1.  For an in-range cell, [isValidMove(row, col, num)] is true exactly
    when the cell is not a given cell and no other cell of its row, column or
    3x3 box currently holds [num]; what the cell itself holds does not
    matter, and [num] is not range-checked. *)
Theorem X1_isValidMove_exact e row col num :
  row < 9 → col < 9 →
  isValidMove e row col num = true ↔
  cell (initialGrid e) row col = 0
  ∧ ∀ r c, r < 9 → c < 9 → (r, c) ≠ (row, col) → peer row col r c →
           cell (grid e) r c ≠ num.
Proof. apply isValidMove_true. Qed.

Lemma X1_witness : isValidMove sessionB 8 8 9 = true.
Proof.
  apply (X1_isValidMove_exact sessionB 8 8 9); [lia | lia |].
  split; [reflexivity|]. intros r c Hr Hc Hne Hpeer.
  assert (Forall (λ p, p ≠ (8, 8) → peer 8 8 p.1 p.2 →
                       cell (grid sessionB) p.1 p.2 ≠ 9) allPositions) as Hall.
  { apply (bool_decide_unpack _). vm_compute. exact I. }
  rewrite Forall_forall in Hall.
  apply (Hall (r, c)); [by apply elem_of_allPositions | done | done].
Defined.

(** X2.  [getPossibleValues(row, col)] is empty for a cell that holds a
    value; for an empty cell it lists, without repetition and in ascending
    order, exactly the digits 1..9 that [isValidMove] accepts there (none at
    all when the cell is a given cell of the puzzle). *)
Theorem X2_getPossibleValues_exact e row col :
  (cell (grid e) row col ≠ 0 → getPossibleValues e row col = [])
  ∧ (cell (grid e) row col = 0 →
     ∀ v, v ∈ getPossibleValues e row col ↔
          1 ≤ v ≤ 9 ∧ isValidMove e row col v = true)
  ∧ StronglySorted lt (getPossibleValues e row col)
  ∧ (cell (initialGrid e) row col ≠ 0 → getPossibleValues e row col = []).
Proof.
  unfold getPossibleValues. split_and!.
  - intros Hfilled%Nat.eqb_neq. by rewrite Hfilled.
  - intros Hz%Nat.eqb_eq v. rewrite Hz. cbn [negb].
    rewrite list_elem_of_filter, elem_of_seq. split; intros [? ?]; split;
      done || lia.
  - destruct (negb _); [constructor|].
    generalize 9 as n. generalize 1 as a. intros a n. revert a.
    induction n as [|n IH]; intros a; [constructor|].
    cbn [seq]. rewrite filter_cons. destruct (decide _); [|apply IH].
    constructor; [apply IH|]. apply Forall_forall. intros x Hx.
    apply list_elem_of_filter in Hx as [_ Hx%elem_of_seq]. lia.
  - intros Hgiven%Nat.eqb_neq. destruct (negb _); [done|].
    apply elem_of_nil_inv. intros v [Hvalid _]%list_elem_of_filter.
    unfold isValidMove in Hvalid. by rewrite Hgiven in Hvalid.
Qed.

Lemma X2_witness : 9 ∈ getPossibleValues sessionB 8 8.
Proof.
  apply (proj1 (proj2 (X2_getPossibleValues_exact sessionB 8 8)));
    [reflexivity|]. split; [lia | reflexivity].
Defined.

(** ** What a move changes *)

Lemma removeAt_fields n ps e :
  grid (removeAt n e ps) = grid e
  ∧ initialGrid (removeAt n e ps) = initialGrid e
  ∧ solution (removeAt n e ps) = solution e.
Proof.
  revert e. induction ps as [|p ps IH]; intros e; [done|].
  unfold removeAt in *. cbn [foldl].
  by destruct (IH (removePencilMark e p.1 p.2 n)) as (-> & -> & ->).
Qed.

Lemma updatePencilMarks_fields e row col num :
  grid (updatePencilMarks e row col num) = grid e
  ∧ initialGrid (updatePencilMarks e row col num) = initialGrid e
  ∧ solution (updatePencilMarks e row col num) = solution e.
Proof.
  rewrite updatePencilMarks_removeAt.
  repeat match goal with |- context [removeAt ?n ?x ?ps] =>
    destruct (removeAt_fields n ps x) as (-> & -> & ->) end.
  done.
Qed.

Lemma placeNumber_success e row col num :
  success (placeNumber e row col num).1 = true ↔
  cell (initialGrid e) row col = 0
  ∧ (num = 0 ∨ isValidMove e row col num = true).
Proof.
  unfold placeNumber.
  destruct (cell (initialGrid e) row col =? 0) eqn:Hgiven; cbn [negb].
  2:{ apply Nat.eqb_neq in Hgiven. cbn. split; [done|]. by intros [? _]. }
  apply Nat.eqb_eq in Hgiven.
  destruct (num =? 0) eqn:Hnum.
  { apply Nat.eqb_eq in Hnum. cbn. split; [|done]. intros _. auto. }
  apply Nat.eqb_neq in Hnum.
  destruct (isValidMove e row col num); cbn.
  - split; [|done]. intros _. auto.
  - split; [done|]. intros [_ [?|?]]; done.
Qed.

Lemma placeNumber_fields e row col num :
  success (placeNumber e row col num).1 = true →
  grid (placeNumber e row col num).2 = setCell (grid e) row col num
  ∧ initialGrid (placeNumber e row col num).2 = initialGrid e
  ∧ solution (placeNumber e row col num).2 = solution e.
Proof.
  unfold placeNumber.
  destruct (negb _); [done|].
  destruct (num =? 0) eqn:Hnum.
  { apply Nat.eqb_eq in Hnum. by subst num. }
  destruct (isValidMove e row col num); [|done]. cbn [fst snd]. intros _.
  match goal with |- context [updatePencilMarks ?x row col num] =>
    destruct (updatePencilMarks_fields x row col num) as (-> & -> & ->) end.
  done.
Qed.

(** X3.  [placeNumber(row, col, num)] succeeds exactly when the cell is
    not a given cell and [num] is 0 or passes [isValidMove]; a successful call
    writes [num] into the cell, changes no other cell of the grid, and leaves
    the given mask and the stored solution alone. *)
Theorem X3_placeNumber_effect e row col num :
  wf_grid (grid e) → row < 9 → col < 9 →
  (success (placeNumber e row col num).1 = true ↔
     cell (initialGrid e) row col = 0
     ∧ (num = 0 ∨ isValidMove e row col num = true))
  ∧ (success (placeNumber e row col num).1 = true →
     cell (grid (placeNumber e row col num).2) row col = num
     ∧ (∀ r c, (r, c) ≠ (row, col) →
               cell (grid (placeNumber e row col num).2) r c
               = cell (grid e) r c)
     ∧ initialGrid (placeNumber e row col num).2 = initialGrid e
     ∧ solution (placeNumber e row col num).2 = solution e).
Proof.
  intros Hwf Hrow Hcol. split; [apply placeNumber_success|].
  intros Hok. destruct (placeNumber_fields e row col num Hok) as (-> & -> & ->).
  split_and!; try done.
  - by apply cell_setCell_eq.
  - intros r c Hne. by apply cell_setCell_ne.
Qed.

Lemma wf_grid_scenarioB : wf_grid scenarioB.
Proof. split; [reflexivity|]. cbn. repeat constructor. Qed.

Lemma X3_witness : cell (grid (placeNumber sessionB 8 8 9).2) 8 8 = 9.
Proof.
  refine (proj1 (proj2 (X3_placeNumber_effect sessionB 8 8 9 _ _ _) _)).
  - split; [reflexivity|]. cbn. repeat constructor.
  - lia.
  - lia.
  - reflexivity.
Defined.

(** X4.  Clearing undoes a commit: after a successful
    [placeNumber(row, col, v)] on an empty cell, [placeNumber(row, col, 0)]
    succeeds and the grid is again what it was before the commit.  Clearing a
    cell never touches the pencil marks. *)
Theorem X4_place_then_clear e row col v :
  cell (grid e) row col = 0 →
  success (placeNumber e row col v).1 = true →
  success (placeNumber (placeNumber e row col v).2 row col 0).1 = true
  ∧ grid (placeNumber (placeNumber e row col v).2 row col 0).2 = grid e
  ∧ pencilMarks (placeNumber (placeNumber e row col v).2 row col 0).2
    = pencilMarks (placeNumber e row col v).2.
Proof.
  intros Hz Hok.
  destruct (placeNumber_fields e row col v Hok) as (Hg & Hi & _).
  apply placeNumber_success in Hok as [Hfree _].
  assert (success (placeNumber (placeNumber e row col v).2 row col 0).1 = true)
    as Hok2.
  { apply placeNumber_success. rewrite Hi. auto. }
  split; [done|]. split.
  - destruct (placeNumber_fields _ row col 0 Hok2) as (-> & _ & _).
    rewrite Hg. by apply setCell_undo.
  - unfold placeNumber at 1. rewrite Hi.
    apply Nat.eqb_eq in Hfree. by rewrite Hfree.
Qed.

Lemma X4_witness :
  grid (placeNumber (placeNumber sessionB 8 8 9).2 8 8 0).2 = grid sessionB.
Proof.
  apply (X4_place_then_clear sessionB 8 8 9); reflexivity.
Defined.

(** ** Resetting *)

Lemma wf2_ext {A} `{!Inhabited A} (a b : list (list A)) :
  wf2 a → wf2 b →
  (∀ r c, r < 9 → c < 9 → at2 a r c = at2 b r c) → a = b.
Proof.
  intros Ha Hb Heq. pose proof Ha as [Hla _]. pose proof Hb as [Hlb _].
  apply list_eq_same_length with 9; [done..|].
  intros r x y Hr Hx Hy.
  apply list_lookup_total_correct in Hx, Hy. subst x y.
  apply list_eq_same_length with 9; [by apply wf2_row..|].
  intros c x y Hc Hx Hy.
  apply list_lookup_total_correct in Hx, Hy. subst x y.
  by apply Heq.
Qed.

(** The pencil marks of a fresh engine. *)
Definition blankMarks : Marks := replicate 9 (replicate 9 ∅).

Lemma wf2_blankMarks : wf2 blankMarks.
Proof.
  split; [reflexivity|]. apply Forall_replicate. apply length_replicate.
Qed.

Lemma at2_blankMarks r c : r < 9 → c < 9 → at2 blankMarks r c = ∅.
Proof.
  intros Hr Hc. unfold at2, blankMarks.
  rewrite (lookup_total_replicate_2 9 (replicate 9 (∅ : gset nat)) r Hr).
  apply lookup_total_replicate_2, Hc.
Qed.

Lemma marks_at2 e r c : marks e r c = at2 (pencilMarks e) r c.
Proof. reflexivity. Qed.

Lemma clearPencilMarks_blank e :
  wf_marks e → pencilMarks (clearPencilMarks e) = blankMarks.
Proof.
  intros Hwf.
  destruct (clearPencilMarks_spec e Hwf) as (Hwf' & _ & _ & _ & Hm).
  generalize dependent (clearPencilMarks e). intros e' Hwf' Hm.
  apply wf2_ext; [exact Hwf' | exact wf2_blankMarks |].
  intros r c Hr Hc. rewrite at2_blankMarks by done.
  rewrite <-marks_at2. by apply Hm.
Qed.

(** X5.  [reset()] puts the puzzle back into the grid and empties every
    pencil-mark set, keeps the given mask and the solution, and resetting
    twice is the same as resetting once. *)
Theorem X5_reset_restores_puzzle e :
  wf_marks e →
  grid (reset e) = initialGrid e
  ∧ initialGrid (reset e) = initialGrid e
  ∧ solution (reset e) = solution e
  ∧ pencilMarks (reset e) = replicate 9 (replicate 9 ∅)
  ∧ (∀ r c, r < 9 → c < 9 → marks (reset e) r c = ∅)
  ∧ reset (reset e) = reset e.
Proof.
  intros Hwf.
  assert (∀ e, wf_marks e →
            reset e = {| grid := initialGrid e; solution := solution e;
                         initialGrid := initialGrid e;
                         pencilMarks := blankMarks |})
    as Hreset.
  { intros e1 Hwf1. unfold reset.
    pose proof (clearPencilMarks_blank
                  (with_grid e1 (deepCopy (initialGrid e1))) Hwf1) as Hpm.
    destruct (clearPencilMarks_spec
                (with_grid e1 (deepCopy (initialGrid e1))) Hwf1)
      as (_ & Hg & Hi & Hs & _).
    destruct (clearPencilMarks _) as [g s i pm].
    cbn [grid solution initialGrid pencilMarks with_grid] in *.
    rewrite deepCopy_id in Hg. by subst. }
  rewrite !(Hreset e Hwf). cbn [grid solution initialGrid pencilMarks].
  split_and!; try done.
  - intros r c Hr Hc. unfold marks. cbn [pencilMarks].
    by apply at2_blankMarks.
  - rewrite Hreset; [done|]. exact wf2_blankMarks.
Qed.

Lemma X5_witness :
  grid (reset (placeNumber sessionB 8 8 9).2) = initialGrid sessionB.
Proof.
  assert (wf_marks (placeNumber sessionB 8 8 9).2) as Hwf.
  { split; [reflexivity|]. vm_compute. repeat constructor. }
  exact (proj1 (X5_reset_restores_puzzle (placeNumber sessionB 8 8 9).2 Hwf)).
Defined.

(** ** Invariants of a session *)

(** No two distinct cells of a row, column or box hold the same non-zero
    value. *)
Definition conflict_free (g : Grid) : Prop :=
  ∀ r c r' c', r < 9 → c < 9 → r' < 9 → c' < 9 →
    (r', c') ≠ (r, c) → peer r c r' c' →
    cell g r c ≠ 0 → cell g r' c' ≠ cell g r c.

Lemma placeNumber_rejected_same e row col num :
  success (placeNumber e row col num).1 = false →
  (placeNumber e row col num).2 = e.
Proof. intros Hno. by destruct (placeNumber_rejected e row col num Hno). Qed.

Lemma togglePencilMark_fields e row col num :
  grid (togglePencilMark e row col num).2 = grid e
  ∧ initialGrid (togglePencilMark e row col num).2 = initialGrid e
  ∧ solution (togglePencilMark e row col num).2 = solution e.
Proof.
  unfold togglePencilMark, addPencilMark.
  case_decide; [done|]. by destruct (cell (grid e) row col =? 0).
Qed.

Lemma init_fields e0 puzzle sol ok e :
  init e0 puzzle sol = Some (ok, e) →
  grid e = puzzle ∧ initialGrid e = puzzle.
Proof.
  unfold init.
  destruct (match sol with Some _ => _ | None => _ end) as [s|]; [|done].
  intros [= <- <-]. unfold clearPencilMarks.
  match goal with |- context [foldl _ ?x allPositions] =>
    fold (clearAt x allPositions);
    destruct (clearAt_fields allPositions x) as (-> & -> & _) end.
  cbn [grid initialGrid]. by rewrite deepCopy_id.
Qed.

Lemma reset_fields e :
  grid (reset e) = initialGrid e ∧ initialGrid (reset e) = initialGrid e.
Proof.
  unfold reset, clearPencilMarks.
  match goal with |- context [foldl _ ?x allPositions] =>
    fold (clearAt x allPositions);
    destruct (clearAt_fields allPositions x) as (-> & -> & _) end.
  cbn [grid initialGrid with_grid]. by rewrite deepCopy_id.
Qed.

Lemma reachable_givens_kept e r c :
  reachable e →
  cell (initialGrid e) r c ≠ 0 → cell (grid e) r c = cell (initialGrid e) r c.
Proof.
  intros Hreach. revert r c.
  induction Hreach as [puzzle sol ok e Hinit
                      | e0 puzzle sol ok e _ _ Hinit
                      | e row col num _ IH Hrow Hcol
                      | e row col num _ IH Hrow Hcol
                      | e _ IH]; intros r c.
  - by destruct (init_fields _ _ _ _ _ Hinit) as [-> ->].
  - by destruct (init_fields _ _ _ _ _ Hinit) as [-> ->].
  - destruct (success (placeNumber e row col num).1) eqn:Hok.
    + destruct (placeNumber_fields e row col num Hok) as (-> & -> & _).
      apply placeNumber_success in Hok as [Hfree _]. intros Hgiven.
      rewrite cell_setCell_ne; [by apply IH|]. intros [= -> ->]. done.
    + rewrite placeNumber_rejected_same by done. apply IH.
  - destruct (togglePencilMark_fields e row col num) as (-> & -> & _).
    apply IH.
  - by destruct (reset_fields e) as [-> ->].
Qed.

(** X6.  Given cells are immutable for the life of a session: in every state
    reached from [init] by [placeNumber], [togglePencilMark] and [reset],
    each cell that is non-zero in the given mask holds its given value. *)
Theorem X6_given_cells_keep_their_value e r c :
  reachable e →
  cell (initialGrid e) r c ≠ 0 → cell (grid e) r c = cell (initialGrid e) r c.
Proof. apply reachable_givens_kept. Qed.

Lemma reachable_sessionB_move :
  reachable (placeNumber (togglePencilMark sessionB 8 8 4).2 8 8 9).2.
Proof.
  apply reach_place; [|lia|lia]. apply reach_toggle; [|lia|lia].
  exact (reach_init scenarioB (Some scenarioA) true sessionB init_sessionB).
Qed.

Lemma X6_witness :
  cell (grid (placeNumber (togglePencilMark sessionB 8 8 4).2 8 8 9).2) 0 0
  = cell (initialGrid
            (placeNumber (togglePencilMark sessionB 8 8 4).2 8 8 9).2) 0 0.
Proof.
  apply X6_given_cells_keep_their_value.
  - exact reachable_sessionB_move.
  - vm_compute. discriminate.
Defined.

Lemma conflict_free_setCell g row col num :
  wf_grid g → row < 9 → col < 9 →
  (num ≠ 0 →
   ∀ r c, r < 9 → c < 9 → (r, c) ≠ (row, col) → peer row col r c →
          cell g r c ≠ num) →
  conflict_free g → conflict_free (setCell g row col num).
Proof.
  intros Hwf Hrow Hcol Hfree Hcf r c r' c' Hr Hc Hr' Hc' Hne Hpeer.
  destruct (decide ((r, c) = (row, col))) as [[= -> ->]|Hne1].
  - rewrite cell_setCell_eq, cell_setCell_ne by done.
    intros Hnum. by apply Hfree.
  - rewrite (cell_setCell_ne _ _ _ _ r c) by done.
    destruct (decide ((r', c') = (row, col))) as [[= -> ->]|Hne2].
    + rewrite cell_setCell_eq by done. intros Hfilled Heq.
      apply (Hfree ltac:(congruence) r c); [done.. | by apply peer_sym | done].
    + rewrite cell_setCell_ne by done. by apply Hcf.
Qed.

Lemma placeNumber_conflict_free e row col num :
  row < 9 → col < 9 →
  wf_grid (grid e) ∧ conflict_free (grid e) →
  wf_grid (grid (placeNumber e row col num).2)
  ∧ conflict_free (grid (placeNumber e row col num).2).
Proof.
  intros Hrow Hcol [Hwf Hcf].
  destruct (success (placeNumber e row col num).1) eqn:Hok.
  - destruct (placeNumber_fields e row col num Hok) as (-> & _ & _).
    split; [by apply wf_grid_setCell|].
    apply conflict_free_setCell; try done. intros Hnum.
    apply placeNumber_success in Hok as [_ [?|Hvalid]]; [done|].
    by apply isValidMove_true in Hvalid as [_ Hvalid].
  - by rewrite placeNumber_rejected_same.
Qed.

(** X7.  The engine never builds a conflict: if the puzzle a session was
    initialised with is a 9x9 grid without two equal non-zero values in a row,
    column or box, then so is the working grid in every state reached by
    [placeNumber], [togglePencilMark] and [reset]. *)
Theorem X7_session_grid_stays_conflict_free e :
  reachable e →
  wf_grid (initialGrid e) → conflict_free (initialGrid e) →
  wf_grid (grid e) ∧ conflict_free (grid e).
Proof.
  induction 1 as [puzzle sol ok e Hinit
                 | e0 puzzle sol ok e _ _ Hinit
                 | e row col num _ IH Hrow Hcol
                 | e row col num _ IH Hrow Hcol
                 | e _ IH].
  - by destruct (init_fields _ _ _ _ _ Hinit) as [-> ->].
  - by destruct (init_fields _ _ _ _ _ Hinit) as [-> ->].
  - intros Hwf Hcf. apply placeNumber_conflict_free; [done..|]. apply IH.
    + destruct (success (placeNumber e row col num).1) eqn:Hok.
      * by destruct (placeNumber_fields e row col num Hok) as (_ & <- & _).
      * by rewrite placeNumber_rejected_same in Hwf.
    + destruct (success (placeNumber e row col num).1) eqn:Hok.
      * by destruct (placeNumber_fields e row col num Hok) as (_ & <- & _).
      * by rewrite placeNumber_rejected_same in Hcf.
  - destruct (togglePencilMark_fields e row col num) as (-> & -> & _).
    apply IH.
  - by destruct (reset_fields e) as [-> ->].
Qed.

Lemma conflict_free_scenarioB : conflict_free scenarioB.
Proof.
  assert (Forall (λ p,
            Forall (λ q, q ≠ p → peer p.1 p.2 q.1 q.2 →
                         cell scenarioB p.1 p.2 ≠ 0 →
                         cell scenarioB q.1 q.2 ≠ cell scenarioB p.1 p.2)
              allPositions) allPositions) as Hall.
  { apply (bool_decide_unpack _). vm_compute. exact I. }
  rewrite Forall_forall in Hall.
  intros r c r' c' Hr Hc Hr' Hc'.
  pose proof (Hall (r, c) ltac:(by apply elem_of_allPositions)) as Hq.
  rewrite Forall_forall in Hq.
  apply (Hq (r', c')). by apply elem_of_allPositions.
Qed.

Lemma X7_witness :
  wf_grid (grid (placeNumber (togglePencilMark sessionB 8 8 4).2 8 8 9).2)
  ∧ conflict_free
      (grid (placeNumber (togglePencilMark sessionB 8 8 4).2 8 8 9).2).
Proof.
  apply X7_session_grid_stays_conflict_free.
  - exact reachable_sessionB_move.
  - exact wf_grid_scenarioB.
  - exact conflict_free_scenarioB.
Defined.

(** ** What [isSolved] computes *)

Lemma revalidateFrom_true ps e :
  (revalidateFrom ps e).1 = true ↔ ∀ p, p ∈ ps → (revalidateCell e p).1 = true.
Proof.
  induction ps as [|p ps IH]; cbn [revalidateFrom].
  - split; [|done]. intros _ p Hp. by apply elem_of_nil in Hp.
  - pose proof (revalidateCell_restores e p) as Hsame.
    destruct (revalidateCell e p) as [ok e'] eqn:Hcell. cbn [snd] in Hsame.
    subst e'. destruct ok.
    + rewrite IH. split.
      * intros Hall q [->|Hq]%elem_of_cons; [by rewrite Hcell|by apply Hall].
      * intros Hall q Hq. apply Hall. by apply list_elem_of_further.
    + split; [done|]. intros Hall.
      specialize (Hall p (list_elem_of_here _ _)). by rewrite Hcell in Hall.
Qed.

Lemma revalidateCell_true e row col :
  wf_grid (grid e) → row < 9 → col < 9 →
  (revalidateCell e (row, col)).1 = true ↔
  (cell (grid e) row col ≠ 0 →
   cell (initialGrid e) row col = 0
   ∧ ∀ r c, r < 9 → c < 9 → (r, c) ≠ (row, col) → peer row col r c →
            cell (grid e) r c ≠ cell (grid e) row col).
Proof.
  intros Hwf Hrow Hcol. unfold revalidateCell.
  destruct (cell (grid e) row col =? 0) eqn:Hz; cbn [negb fst].
  { apply Nat.eqb_eq in Hz. split; [|done]. intros _ Hnz. done. }
  apply Nat.eqb_neq in Hz.
  rewrite isValidMove_true by done. cbn [initialGrid grid with_grid].
  split.
  - intros [Hfree Hpeers] _. split; [done|]. intros r c Hr Hc Hne Hpeer.
    specialize (Hpeers r c Hr Hc Hne Hpeer).
    by rewrite cell_setCell_ne in Hpeers.
  - intros Hall. destruct (Hall Hz) as [Hfree Hpeers]. split; [done|].
    intros r c Hr Hc Hne Hpeer. rewrite cell_setCell_ne by done.
    by apply Hpeers.
Qed.

(** X8.  On a 9x9 grid [isSolved()] returns true exactly when no cell is
    empty, no two cells of a row, column or box hold the same value, and the
    given mask is entirely zero; the temporary clearing done by the
    re-validation is always undone, so the call leaves the engine as it was. *)
Theorem X8_isSolved_exact e :
  wf_grid (grid e) →
  ((isSolved e).1 = true ↔
     full (grid e) ∧ conflict_free (grid e)
     ∧ ∀ r c, r < 9 → c < 9 → cell (initialGrid e) r c = 0)
  ∧ (isSolved e).2 = e.
Proof.
  intros Hwf. unfold isSolved, isValidSolution.
  destruct (existsb _ allPositions) eqn:Hempty.
  - split; [|done]. split; [done|]. intros (Hfull & _).
    apply existsb_elem_of in Hempty as ([r c] & [Hr Hc]%elem_of_allPositions
                                        & Hz%Nat.eqb_eq).
    by destruct (Hfull r c).
  - split; [|apply revalidateFrom_restores].
    assert (full (grid e)) as Hfull.
    { intros r c Hr Hc. rewrite existsb_false_elem_of in Hempty.
      specialize (Hempty (r, c) ltac:(by apply elem_of_allPositions)).
      by apply Nat.eqb_neq in Hempty. }
    rewrite revalidateFrom_true. split.
    + intros Hall. split; [done|]. split.
      * intros r c r' c' Hr Hc Hr' Hc' Hne Hpeer Hnz.
        specialize (Hall (r, c) ltac:(by apply elem_of_allPositions)).
        apply revalidateCell_true in Hall as [_ Hall]; try done.
        by apply Hall.
      * intros r c Hr Hc.
        specialize (Hall (r, c) ltac:(by apply elem_of_allPositions)).
        apply revalidateCell_true in Hall as [Hfree _]; try done.
        by apply Hfull.
    + intros (_ & Hcf & Hfree) [r c] [Hr Hc]%elem_of_allPositions.
      apply revalidateCell_true; try done. intros Hnz.
      split; [by apply Hfree|]. intros r' c' Hr' Hc' Hne Hpeer.
      by apply Hcf.
Qed.

(** A session played on an empty board reaches the solved state. *)
Definition solvedFreePlay : Engine :=
  {| grid := scenarioA; solution := Some scenarioA; initialGrid := emptyGrid;
     pencilMarks := blankMarks |}.

Lemma wf_grid_scenarioA : wf_grid scenarioA.
Proof. split; [reflexivity|]. unfold scenarioA. repeat constructor. Qed.

Lemma X8_witness : (isSolved solvedFreePlay).2 = solvedFreePlay.
Proof.
  exact (proj2 (X8_isSolved_exact solvedFreePlay wf_grid_scenarioA)).
Defined.

(** X9.  A session whose puzzle has at least one clue is never reported
    solved: in every state reached from [init], [isSolved()] returns false
    as soon as the given mask has a non-zero cell. *)
Theorem X9_isSolved_false_in_every_session_with_a_clue e r c :
  reachable e → r < 9 → c < 9 → cell (initialGrid e) r c ≠ 0 →
  (isSolved e).1 = false.
Proof.
  intros Hreach Hr Hc Hgiven.
  apply (isSolved_false_with_given e r c); try done.
  by rewrite reachable_givens_kept.
Qed.

Lemma X9_witness :
  (isSolved (placeNumber (togglePencilMark sessionB 8 8 4).2 8 8 9).2).1
  = false.
Proof.
  apply (X9_isSolved_false_in_every_session_with_a_clue _ 0 0).
  - exact reachable_sessionB_move.
  - lia.
  - lia.
  - vm_compute. discriminate.
Defined.

(** ** The solver *)

(** [g'] keeps the clues of [g]. *)
Definition keeps (g g' : Grid) : Prop :=
  ∀ r c, r < 9 → c < 9 → cell g r c ≠ 0 → cell g' r c = cell g r c.

Lemma completes_keeps g s : completes g s ↔ consistent s ∧ full s ∧ keeps g s.
Proof. done. Qed.

Lemma consistent_conflict_free g :
  consistent g ↔ (∀ r c, r < 9 → c < 9 → cell g r c ≤ 9) ∧ conflict_free g.
Proof. done. Qed.

(** What a call of the solver on [g] does: it returns; a failed call leaves
    the grid as it found it; a successful call leaves a full 9x9 grid that
    keeps the clues of [g] and is consistent if [g] was; and the call succeeds
    whenever [must] holds. *)
Definition solve_returns (g : Grid) (must : Prop)
    (res : option (bool * Grid)) : Prop :=
  ∃ b g',
    res = Some (b, g')
    ∧ (b = false → g' = g)
    ∧ (b = true →
       wf_grid g' ∧ full g' ∧ keeps g g' ∧ (consistent g → consistent g'))
    ∧ (must → b = true).

Lemma tryAscending_solves rec row col n g :
  (∀ g1, wf_grid g1 → countEmpty g1 < n →
         solve_returns g1 (∃ s, completes g1 s) (rec g1)) →
  wf_grid g → row < 9 → col < 9 → cell g row col = 0 → countEmpty g ≤ n →
  ∀ nums, (∀ x, x ∈ nums → 1 ≤ x ≤ 9) →
  solve_returns g (∃ s, completes g s ∧ cell s row col ∈ nums)
    (tryAscending rec row col nums g).
Proof.
  intros Hrec Hwf Hrow Hcol Hz Hcount nums.
  induction nums as [|num rest IH]; intros Hdigits; cbn [tryAscending].
  - exists false, g. split_and!; try done.
    intros (s & _ & Hin). by apply elem_of_nil in Hin.
  - assert (∀ x, x ∈ rest → 1 ≤ x ≤ 9) as Hrest
      by (intros x Hx; apply Hdigits; by apply list_elem_of_further).
    assert (1 ≤ num ≤ 9) as Hnum by apply Hdigits, list_elem_of_here.
    change (isValidMoveForGrid g row col num)
      with (isValidPlacement g row col num).
    destruct (isValidPlacement g row col num) eqn:Hvalid.
    + destruct (Hrec (setCell g row col num))
        as (b & g' & -> & Hfail & Hdone & Hmust).
      { by apply wf_grid_setCell. }
      { pose proof (countEmpty_setCell g row col num Hwf Hrow Hcol Hz).
        lia. }
      destruct b.
      * exists true, g'. split_and!; try done.
        intros _. destruct (Hdone eq_refl) as (Hwf' & Hfull' & Hkeeps' & Hcons').
        split_and!; [done..| |].
        -- intros r c Hr Hc Hnz. rewrite Hkeeps'; try done.
           ++ apply cell_setCell_ne. intros [= -> ->]. done.
           ++ rewrite cell_setCell_ne; [done|]. intros [= -> ->]. done.
        -- intros Hcons. by apply Hcons', consistent_setCell.
      * rewrite Hfail, setCell_undo by done.
        destruct (IH Hrest) as (b & g2 & -> & Hfail2 & Hdone2 & Hmust2).
        exists b, g2. split_and!; try done.
        intros (s & Hs & Hin). apply Hmust2. exists s. split; [done|].
        apply elem_of_cons in Hin as [Heq | Hin]; [|done].
        exfalso. assert (false = true); [|done]. apply Hmust.
        exists s. rewrite <-Heq. by apply completes_setCell.
    + destruct (IH Hrest) as (b & g2 & -> & Hfail2 & Hdone2 & Hmust2).
      exists b, g2. split_and!; try done.
      intros (s & Hs & Hin). apply Hmust2. exists s. split; [done|].
      apply elem_of_cons in Hin as [Heq | Hin]; [|done].
      exfalso. pose proof (completes_valid g s row col Hrow Hcol Hz Hs).
      congruence.
Qed.

Lemma solveRecursive_solves fuel g :
  wf_grid g → countEmpty g < fuel →
  solve_returns g (∃ s, completes g s) (solveRecursive fuel g).
Proof.
  revert g. induction fuel as [|fuel IH]; intros g Hwf Hfuel; [lia|].
  cbn [solveRecursive]. unfold SudokuEngine.firstEmpty.
  destruct (find _ allPositions) as [[row col]|] eqn:Hfind.
  - apply find_empty_Some in Hfind as (Hrow & Hcol & Hz).
    destruct (tryAscending_solves (solveRecursive fuel) row col fuel g IH Hwf
                Hrow Hcol Hz ltac:(lia) (seq 1 9))
      as (b & g' & Hres & Hfail & Hdone & Hmust).
    { intros x Hx%elem_of_seq. lia. }
    exists b, g'. split_and!; try done.
    intros (s & Hs). apply Hmust. exists s. split; [done|].
    apply elem_of_seq.
    pose proof (completes_digit g s row col Hrow Hcol Hs). lia.
  - exists true, g. split_and!; try done. intros _.
    split_and!; [done | exact (find_empty_None g Hfind) | done | done].
Qed.

Lemma solvePuzzle_solves g :
  wf_grid g →
  (∃ s, solvePuzzle g = Some (Some s)
        ∧ wf_grid s ∧ full s ∧ keeps g s ∧ (consistent g → completes g s))
  ∨ (solvePuzzle g = Some None ∧ ¬ ∃ s, completes g s).
Proof.
  intros Hwf. unfold solvePuzzle. rewrite deepCopy_id.
  destruct (solveRecursive_solves SudokuEngine.searchDepth g Hwf)
    as (b & g' & -> & Hfail & Hdone & Hmust).
  { pose proof (countEmpty_bound g). unfold SudokuEngine.searchDepth. lia. }
  destruct b.
  - left. exists g'. destruct (Hdone eq_refl) as (? & ? & ? & Hcons).
    split_and!; try done. intros Hg. split_and!; [by apply Hcons|done..].
  - right. split; [done|]. intros Hs. by specialize (Hmust Hs).
Qed.

(** X10.  [solvePuzzle] is a correct and complete search on every 9x9 grid:
    it returns within its recursion depth; a returned solution is a full 9x9
    grid that keeps every clue of the puzzle and, when the puzzle has values up
    to 9 and no conflict, has no conflict either; and [null] is returned only
    when the puzzle has no completion at all. *)
Theorem X10_solvePuzzle_correct g :
  wf_grid g →
  (∃ s, solvePuzzle g = Some (Some s)
        ∧ wf_grid s ∧ full s ∧ keeps g s ∧ (consistent g → completes g s))
  ∨ (solvePuzzle g = Some None ∧ ¬ ∃ s, completes g s).
Proof. apply solvePuzzle_solves. Qed.

Lemma X10_witness :
  (∃ s, solvePuzzle scenarioB = Some (Some s)
        ∧ wf_grid s ∧ full s ∧ keeps scenarioB s
        ∧ (consistent scenarioB → completes scenarioB s))
  ∨ (solvePuzzle scenarioB = Some None ∧ ¬ ∃ s, completes scenarioB s).
Proof. apply X10_solvePuzzle_correct. exact wf_grid_scenarioB. Defined.

(** ** Validation of a recognised puzzle *)

Lemma lambda_solveRecursive fuel g :
  Lambda.solveRecursive fuel g = SudokuEngine.solveRecursive fuel g.
Proof. reflexivity. Qed.

Lemma lambda_solvePuzzle g : Lambda.solvePuzzle g = SudokuEngine.solvePuzzle g.
Proof.
  unfold Lambda.solvePuzzle, SudokuEngine.solvePuzzle, SudokuEngine.searchDepth.
  by rewrite lambda_solveRecursive.
Qed.

Lemma lambda_revalidateCell_restores g p : (Lambda.revalidateCell g p).2 = g.
Proof.
  destruct p as [row col]. unfold Lambda.revalidateCell.
  destruct (negb _); cbn [snd]; [|done]. apply setCell_restore.
Qed.

Lemma lambda_revalidateFrom_restores ps g : (Lambda.revalidateFrom ps g).2 = g.
Proof.
  induction ps as [|p ps IH]; [done|]. cbn [Lambda.revalidateFrom].
  pose proof (lambda_revalidateCell_restores g p) as Hcell.
  destruct (Lambda.revalidateCell g p) as [ok g']. cbn [snd] in Hcell.
  subst g'. by destruct ok.
Qed.

Lemma lambda_revalidateFrom_true ps g :
  (Lambda.revalidateFrom ps g).1 = true ↔
  ∀ p, p ∈ ps → (Lambda.revalidateCell g p).1 = true.
Proof.
  induction ps as [|p ps IH]; cbn [Lambda.revalidateFrom].
  - split; [|done]. intros _ p Hp. by apply elem_of_nil in Hp.
  - pose proof (lambda_revalidateCell_restores g p) as Hsame.
    destruct (Lambda.revalidateCell g p) as [ok g'] eqn:Hcell.
    cbn [snd] in Hsame. subst g'. destruct ok.
    + rewrite IH. split.
      * intros Hall q [->|Hq]%elem_of_cons; [by rewrite Hcell|by apply Hall].
      * intros Hall q Hq. apply Hall. by apply list_elem_of_further.
    + split; [done|]. intros Hall.
      specialize (Hall p (list_elem_of_here _ _)). by rewrite Hcell in Hall.
Qed.

Lemma lambda_revalidateCell_true g row col :
  wf_grid g → row < 9 → col < 9 →
  (Lambda.revalidateCell g (row, col)).1 = true ↔
  (cell g row col ≠ 0 →
   ∀ r c, r < 9 → c < 9 → (r, c) ≠ (row, col) → peer row col r c →
          cell g r c ≠ cell g row col).
Proof.
  intros Hwf Hrow Hcol. unfold Lambda.revalidateCell.
  destruct (cell g row col =? 0) eqn:Hz; cbn [negb fst].
  { apply Nat.eqb_eq in Hz. split; [|done]. intros _ Hnz. done. }
  apply Nat.eqb_neq in Hz.
  change (Lambda.isValidMove ?a ?b ?c ?d) with (isValidPlacement a b c d).
  rewrite isValidPlacement_true by done. split.
  - intros Hpeers _ r c Hr Hc Hne Hpeer.
    specialize (Hpeers r c Hr Hc Hpeer). by rewrite cell_setCell_ne in Hpeers.
  - intros Hall r c Hr Hc Hpeer.
    destruct (decide ((r, c) = (row, col))) as [[= -> ->]|Hne].
    + rewrite cell_setCell_eq by done. congruence.
    + rewrite cell_setCell_ne by done. by apply Hall.
Qed.

Lemma isValidPuzzleState_conflict_free g :
  wf_grid g →
  ((Lambda.isValidPuzzleState g).1 = true ↔ conflict_free g)
  ∧ (Lambda.isValidPuzzleState g).2 = g.
Proof.
  intros Hwf. unfold Lambda.isValidPuzzleState.
  split; [|apply lambda_revalidateFrom_restores].
  rewrite lambda_revalidateFrom_true. split.
  - intros Hall r c r' c' Hr Hc Hr' Hc' Hne Hpeer Hnz.
    specialize (Hall (r, c) ltac:(by apply elem_of_allPositions)).
    apply (proj1 (lambda_revalidateCell_true g r c Hwf Hr Hc) Hall); done.
  - intros Hcf [r c] [Hr Hc]%elem_of_allPositions.
    apply lambda_revalidateCell_true; try done.
    intros Hnz r' c' Hr' Hc' Hne Hpeer. by apply Hcf.
Qed.

(** X11.  On a 9x9 grid [isValidPuzzleState] of the Lambda returns true
    exactly when no two cells of a row, column or box hold the same non-zero
    value, and the grid it was given is unchanged when it returns. *)
Theorem X11_isValidPuzzleState_exact g :
  wf_grid g →
  ((Lambda.isValidPuzzleState g).1 = true ↔ conflict_free g)
  ∧ (Lambda.isValidPuzzleState g).2 = g.
Proof. apply isValidPuzzleState_conflict_free. Qed.

Lemma X11_witness : (Lambda.isValidPuzzleState scenarioB).1 = true.
Proof.
  apply (proj1 (X11_isValidPuzzleState_exact scenarioB wf_grid_scenarioB)).
  exact conflict_free_scenarioB.
Defined.

Lemma checkRow_None puzzle row :
  Lambda.checkRow puzzle row = None ↔
  length (puzzle !!! row) = 9 ∧ ∀ c, c < 9 → cell puzzle row c ≤ 9.
Proof.
  unfold Lambda.checkRow.
  destruct (length (puzzle !!! row) =? 9) eqn:Hlen; cbn [negb].
  2:{ apply Nat.eqb_neq in Hlen. split; [done|]. by intros [? _]. }
  apply Nat.eqb_eq in Hlen.
  destruct (existsb _ (seq 0 9)) eqn:Hbig.
  - split; [done|]. intros [_ Hrange].
    apply existsb_elem_of in Hbig as (c & Hc%elem_of_seq & Hgt%Nat.ltb_lt).
    specialize (Hrange c ltac:(lia)). lia.
  - split; [|done]. intros _. split; [done|]. intros c Hc.
    rewrite existsb_false_elem_of in Hbig.
    specialize (Hbig c ltac:(apply elem_of_seq; lia)).
    apply Nat.ltb_ge in Hbig. done.
Qed.

Lemma checkRows_None puzzle rows :
  Lambda.checkRows puzzle rows = None ↔
  ∀ r, r ∈ rows →
       length (puzzle !!! r) = 9 ∧ ∀ c, c < 9 → cell puzzle r c ≤ 9.
Proof.
  induction rows as [|row rows IH]; cbn [Lambda.checkRows].
  - split; [|done]. intros _ r Hr. by apply elem_of_nil in Hr.
  - destruct (Lambda.checkRow puzzle row) eqn:Hrow.
    + split; [done|]. intros Hall.
      specialize (Hall row (list_elem_of_here _ _)).
      apply checkRow_None in Hall. congruence.
    + apply checkRow_None in Hrow. rewrite IH. split.
      * intros Hall r [->|Hr]%elem_of_cons; [done|by apply Hall].
      * intros Hall r Hr. apply Hall. by apply list_elem_of_further.
Qed.

Lemma validate_shape puzzle :
  ((length puzzle =? 9) = true ∧ Lambda.checkRows puzzle (seq 0 9) = None) ↔
  wf_grid puzzle ∧ ∀ r c, r < 9 → c < 9 → cell puzzle r c ≤ 9.
Proof.
  rewrite Nat.eqb_eq, checkRows_None. split.
  - intros [Hlen Hrows]. split.
    + split; [done|]. apply Forall_lookup. intros r row Hrow.
      assert (r < 9) as Hr by (apply lookup_lt_Some in Hrow; lia).
      destruct (Hrows r) as [Hl _]; [apply elem_of_seq; lia|].
      by rewrite (list_lookup_total_correct _ _ _ Hrow) in Hl.
    + intros r c Hr Hc.
      destruct (Hrows r) as [_ Hv]; [apply elem_of_seq; lia|]. by apply Hv.
  - intros [Hwf Hrange]. split; [by destruct Hwf|].
    intros r Hr%elem_of_seq. split; [apply wf2_row; [done|lia]|].
    intros c Hc. apply Hrange; [lia|done].
Qed.

Lemma validate_well_shaped puzzle :
  wf_grid puzzle → (∀ r c, r < 9 → c < 9 → cell puzzle r c ≤ 9) →
  Lambda.validateAndSolvePuzzle puzzle =
    if (Lambda.isValidPuzzleState puzzle).1 then
      match solvePuzzle puzzle with
      | None => None
      | Some None => Some (Lambda.Invalid "Puzzle has no valid solution")
      | Some (Some sol) => Some (Lambda.Valid sol)
      end
    else Some (Lambda.Invalid "Puzzle has conflicts").
Proof.
  intros Hwf Hrange.
  destruct (proj2 (validate_shape puzzle) (conj Hwf Hrange)) as [Hlen Hrows].
  unfold Lambda.validateAndSolvePuzzle. rewrite Hlen, Hrows. cbn [negb].
  pose proof (lambda_revalidateFrom_restores allPositions puzzle) as Hsame.
  unfold Lambda.isValidPuzzleState in *.
  destruct (Lambda.revalidateFrom allPositions puzzle) as [ok puzzle'].
  cbn [fst snd] in *. subst puzzle'. destruct ok; [|done]. cbn [negb].
  by rewrite lambda_solvePuzzle, deepCopy_id.
Qed.

Lemma validate_accepts_inv puzzle sol :
  Lambda.validateAndSolvePuzzle puzzle = Some (Lambda.Valid sol) →
  wf_grid puzzle ∧ ∀ r c, r < 9 → c < 9 → cell puzzle r c ≤ 9.
Proof.
  intros Hvalid. apply validate_shape.
  unfold Lambda.validateAndSolvePuzzle in Hvalid.
  destruct (length puzzle =? 9); [|done]. cbn [negb] in Hvalid.
  by destruct (Lambda.checkRows puzzle (seq 0 9)).
Qed.

(** X12.  [validateAndSolvePuzzle] accepts a grid of naturals exactly when it
    is 9x9 with values up to 9, has no two equal non-zero values in a row,
    column or box, and has a completion; the solution it returns is then a
    completion of the puzzle.  A grid of another length is refused as
    "Invalid puzzle format", a well-shaped grid with a conflict as "Puzzle
    has conflicts", and a conflict-free one without completion as "Puzzle has
    no valid solution". *)
Theorem X12_validateAndSolvePuzzle_exact puzzle :
  (∀ sol, Lambda.validateAndSolvePuzzle puzzle = Some (Lambda.Valid sol) →
          wf_grid puzzle ∧ consistent puzzle ∧ completes puzzle sol)
  ∧ (wf_grid puzzle → consistent puzzle → (∃ s, completes puzzle s) →
     ∃ sol, Lambda.validateAndSolvePuzzle puzzle = Some (Lambda.Valid sol))
  ∧ (length puzzle ≠ 9 →
     Lambda.validateAndSolvePuzzle puzzle
     = Some (Lambda.Invalid "Invalid puzzle format"))
  ∧ (wf_grid puzzle → (∀ r c, r < 9 → c < 9 → cell puzzle r c ≤ 9) →
     ¬ conflict_free puzzle →
     Lambda.validateAndSolvePuzzle puzzle
     = Some (Lambda.Invalid "Puzzle has conflicts"))
  ∧ (wf_grid puzzle → consistent puzzle → ¬ (∃ s, completes puzzle s) →
     Lambda.validateAndSolvePuzzle puzzle
     = Some (Lambda.Invalid "Puzzle has no valid solution")).
Proof.
  split_and!.
  - intros sol Hvalid.
    destruct (validate_accepts_inv puzzle sol Hvalid) as [Hwf Hrange].
    rewrite validate_well_shaped in Hvalid by done.
    destruct (isValidPuzzleState_conflict_free puzzle Hwf) as [Hcf _].
    destruct (Lambda.isValidPuzzleState puzzle).1; [|done].
    assert (consistent puzzle) as Hcons by (split; [done|by apply Hcf]).
    split; [done|]. split; [done|].
    destruct (solvePuzzle_solves puzzle Hwf)
      as [(s & Hs & _ & _ & _ & Hcomp) | [Hs _]]; rewrite Hs in Hvalid;
      [|done].
    injection Hvalid as <-. by apply Hcomp.
  - intros Hwf Hcons Hcomp. pose proof Hcons as [Hrange Hcf].
    rewrite validate_well_shaped by done.
    destruct (isValidPuzzleState_conflict_free puzzle Hwf) as [Hok _].
    rewrite (proj2 Hok Hcf).
    destruct (solvePuzzle_solves puzzle Hwf)
      as [(s & -> & _) | [_ Hno]]; [by exists s|done].
  - intros Hlen%Nat.eqb_neq. unfold Lambda.validateAndSolvePuzzle.
    by rewrite Hlen.
  - intros Hwf Hrange Hcf. rewrite validate_well_shaped by done.
    destruct (isValidPuzzleState_conflict_free puzzle Hwf) as [Hok _].
    destruct (Lambda.isValidPuzzleState puzzle).1; [|done].
    exfalso. by apply Hcf, Hok.
  - intros Hwf Hcons Hno. pose proof Hcons as [Hrange Hcf].
    rewrite validate_well_shaped by done.
    destruct (isValidPuzzleState_conflict_free puzzle Hwf) as [Hok _].
    rewrite (proj2 Hok Hcf).
    destruct (solvePuzzle_solves puzzle Hwf)
      as [(s & _ & _ & _ & _ & Hcomp) | [-> _]]; [|done].
    exfalso. apply Hno. exists s. by apply Hcomp.
Qed.

Lemma consistent_scenarioB : consistent scenarioB.
Proof.
  split; [|apply conflict_free_scenarioB].
  assert (Forall (λ p, cell scenarioB p.1 p.2 ≤ 9) allPositions) as Hall.
  { apply (bool_decide_unpack _). vm_compute. exact I. }
  rewrite Forall_forall in Hall. intros r c Hr Hc.
  apply (Hall (r, c)). by apply elem_of_allPositions.
Qed.

Lemma scenarioB_completes : completes scenarioB scenarioA.
Proof.
  split_and!; [apply consistent_scenarioA | apply full_scenarioA |].
  assert (Forall (λ p, cell scenarioB p.1 p.2 ≠ 0 →
                       cell scenarioA p.1 p.2 = cell scenarioB p.1 p.2)
            allPositions) as Hall.
  { apply (bool_decide_unpack _). vm_compute. exact I. }
  rewrite Forall_forall in Hall. intros r c Hr Hc.
  apply (Hall (r, c)). by apply elem_of_allPositions.
Qed.

Lemma X12_witness :
  ∃ sol, Lambda.validateAndSolvePuzzle scenarioB = Some (Lambda.Valid sol).
Proof.
  apply (proj1 (proj2 (X12_validateAndSolvePuzzle_exact scenarioB))).
  - exact wf_grid_scenarioB.
  - exact consistent_scenarioB.
  - exists scenarioA. exact scenarioB_completes.
Defined.

(** * Further properties of the generator *)

(** X13.  [shuffleArray] only rearranges: for every array and every run of
    the random source the result is a permutation of the input, of the same
    length. *)
Theorem X13_shuffleArray_permutes {A} (array : list A) rng :
  (shuffleArray array rng).1 ≡ₚ array
  ∧ length (shuffleArray array rng).1 = length array.
Proof.
  pose proof (shuffleArray_Permutation array rng) as Hperm.
  split; [done|]. by rewrite Hperm.
Qed.

(** ** The clue count of a derived puzzle *)

Lemma targetClues_range difficulty rng :
  17 ≤ (targetClues difficulty rng).1 ≤ 50
  ∧ (difficulty = "easy" → 45 ≤ (targetClues difficulty rng).1 ≤ 50)
  ∧ (difficulty = "medium" → 35 ≤ (targetClues difficulty rng).1 ≤ 40)
  ∧ (difficulty = "hard" → 25 ≤ (targetClues difficulty rng).1 ≤ 30)
  ∧ (difficulty = "expert" → 17 ≤ (targetClues difficulty rng).1 ≤ 22)
  ∧ (hasSettings difficulty = false →
     35 ≤ (targetClues difficulty rng).1 ≤ 40).
Proof.
  unfold targetClues, randomBelow.
  pose proof (Nat.mod_upper_bound (oracle rng (cursor rng)) 6 ltac:(lia)).
  set (k := oracle rng (cursor rng) `mod` 6) in *. clearbody k.
  assert (hasSettings "easy" = true) as Heasy by (vm_compute; reflexivity).
  assert (hasSettings "medium" = true) as Hmedium by (vm_compute; reflexivity).
  assert (hasSettings "hard" = true) as Hhard by (vm_compute; reflexivity).
  assert (hasSettings "expert" = true) as Hexpert by (vm_compute; reflexivity).
  split; [repeat case_match; cbn [fst]; lia|].
  split_and!; intros Hd; rewrite ?Hd, ?Heasy, ?Hmedium, ?Hhard, ?Hexpert;
    simpl; lia.
Qed.

Lemma countEmpty_clear g row col :
  wf_grid g → row < 9 → col < 9 → cell g row col ≠ 0 →
  countEmpty (setCell g row col 0) = S (countEmpty g).
Proof.
  intros Hwf Hrow Hcol Hnz. unfold countEmpty.
  apply (filter_one_less _ _ allPositions (row, col)).
  - apply NoDup_allPositions.
  - by apply elem_of_allPositions.
  - cbn [fst snd]. by rewrite cell_setCell_eq.
  - done.
  - intros [r c] Hne. cbn [fst snd]. by rewrite cell_setCell_ne.
Qed.

Lemma removeLoop_exact positions target puzzle clues :
  wf_grid puzzle → NoDup positions →
  (∀ p, p ∈ positions → p.1 < 9 ∧ p.2 < 9 ∧ cell puzzle p.1 p.2 ≠ 0) →
  filledCells puzzle = clues → 17 ≤ target → target ≤ clues →
  clues - target ≤ length positions →
  filledCells (removeLoop positions target (puzzle, clues)).1 = target
  ∧ wf_grid (removeLoop positions target (puzzle, clues)).1.
Proof.
  revert puzzle clues.
  induction positions as [|[row col] rest IH];
    intros puzzle clues Hwf Hnd Hcells Hfilled Htarget Hle Hlen;
    cbn [removeLoop length fst snd] in *.
  - split; [lia|done].
  - destruct (clues <=? target) eqn:Hbreak.
    { apply Nat.leb_le in Hbreak. cbn [fst]. split; [lia|done]. }
    apply Nat.leb_gt in Hbreak.
    destruct (Hcells (row, col)) as (Hrow & Hcol & Hnz);
      [apply list_elem_of_here|]. cbn [fst snd] in *.
    pose proof (countEmpty_clear puzzle row col Hwf Hrow Hcol Hnz) as Hcount.
    pose proof (filled_plus_empty puzzle).
    pose proof (filled_plus_empty (setCell puzzle row col 0)).
    unfold removeStep, hasUniqueSolution.
    destruct (countEmpty (setCell puzzle row col 0) <=? 64) eqn:Hgate.
    2:{ apply Nat.leb_gt in Hgate. lia. }
    apply NoDup_cons in Hnd as [Hfresh Hnd].
    apply IH; try done; try lia.
    + by apply wf_grid_setCell.
    + intros [r c] Hp. destruct (Hcells (r, c)) as (? & ? & ?);
        [by apply list_elem_of_further|]. cbn [fst snd] in *.
      split_and!; [done..|]. rewrite cell_setCell_ne; [done|].
      intros [= -> ->]. done.
Qed.

Lemma filledCells_full g : full g → filledCells g = 81.
Proof.
  intros Hfull. pose proof (filled_plus_empty g) as Hsum.
  assert (countEmpty g = 0) as Hnone; [|lia].
  unfold countEmpty. apply length_zero_iff_nil, elem_of_nil_inv.
  intros [r c] [Hz [Hr Hc]%elem_of_allPositions]%list_elem_of_filter.
  by apply (Hfull r c).
Qed.

Lemma createPuzzle_exact sol difficulty rng :
  wf_grid sol → full sol →
  filledCells (createPuzzle sol difficulty rng).1
  = (targetClues difficulty rng).1
  ∧ wf_grid (createPuzzle sol difficulty rng).1.
Proof.
  intros Hwf Hfull. unfold createPuzzle.
  pose proof (targetClues_range difficulty rng) as (Hrange & _).
  destruct (targetClues difficulty rng) as [target rng1]. cbn [fst] in *.
  pose proof (shuffleArray_Permutation allPositions rng1) as Hperm.
  destruct (shuffleArray allPositions rng1) as [positions rng2].
  cbn [fst] in *. rewrite deepCopy_id.
  apply removeLoop_exact; try done; try lia.
  - rewrite Hperm. apply NoDup_allPositions.
  - intros [r c] Hp. rewrite Hperm in Hp.
    apply elem_of_allPositions in Hp as [Hr Hc]. cbn [fst snd].
    split_and!; [done..|]. by apply Hfull.
  - by apply filledCells_full.
  - rewrite Hperm. cbn. lia.
Qed.

(** X14.  From a full 9x9 solution [createPuzzle] removes clues until
    exactly the drawn target is left: the gate of [hasUniqueSolution] never
    rejects a removal on that path.  The puzzle therefore has 45..50 clues for
    "easy", 35..40 for "medium", 25..30 for "hard", 17..22 for "expert", and
    35..40 for a name that [difficulty_settings] does not know. *)
Theorem X14_createPuzzle_hits_target sol difficulty rng :
  wf_grid sol → full sol →
  filledCells (createPuzzle sol difficulty rng).1
  = (targetClues difficulty rng).1
  ∧ (difficulty = "easy" →
     45 ≤ filledCells (createPuzzle sol difficulty rng).1 ≤ 50)
  ∧ (difficulty = "medium" →
     35 ≤ filledCells (createPuzzle sol difficulty rng).1 ≤ 40)
  ∧ (difficulty = "hard" →
     25 ≤ filledCells (createPuzzle sol difficulty rng).1 ≤ 30)
  ∧ (difficulty = "expert" →
     17 ≤ filledCells (createPuzzle sol difficulty rng).1 ≤ 22)
  ∧ (hasSettings difficulty = false →
     35 ≤ filledCells (createPuzzle sol difficulty rng).1 ≤ 40).
Proof.
  intros Hwf Hfull.
  destruct (createPuzzle_exact sol difficulty rng Hwf Hfull) as [-> _].
  split; [done|]. apply targetClues_range.
Qed.

Lemma X14_witness :
  45 ≤ filledCells (createPuzzle scenarioA "easy" rng0).1 ≤ 50.
Proof.
  apply (X14_createPuzzle_hits_target scenarioA "easy" rng0).
  - exact wf_grid_scenarioA.
  - exact full_scenarioA.
  - reflexivity.
Defined.

(** X15.  [getPuzzleStats] of the puzzle derived from a full 9x9 solution
    reports the difficulty that was asked for, for each of the four levels,
    and "medium" for an unknown name; its two counts add up to 81. *)
Theorem X15_getPuzzleStats_reports_requested_level sol difficulty rng :
  wf_grid sol → full sol →
  (difficulty ∈ ownSettings →
   statDifficulty (getPuzzleStats (createPuzzle sol difficulty rng).1)
   = difficulty)
  ∧ (hasSettings difficulty = false →
     statDifficulty (getPuzzleStats (createPuzzle sol difficulty rng).1)
     = "medium")
  ∧ statFilledCells (getPuzzleStats (createPuzzle sol difficulty rng).1)
    + statEmptyCells (getPuzzleStats (createPuzzle sol difficulty rng).1)
    = 81.
Proof.
  intros Hwf Hfull.
  pose proof (targetClues_range difficulty rng)
    as (_ & Heasy & Hmedium & Hhard & Hexpert & Hunknown).
  destruct (createPuzzle_exact sol difficulty rng Hwf Hfull) as [Hexact _].
  rewrite <-Hexact in Heasy, Hmedium, Hhard, Hexpert, Hunknown.
  unfold getPuzzleStats. cbn [statDifficulty statFilledCells statEmptyCells].
  pose proof (filled_plus_empty (createPuzzle sol difficulty rng).1).
  split_and!; [| |lia].
  - unfold ownSettings. rewrite !elem_of_cons, elem_of_nil.
    unfold estimateDifficulty.
    intros [Hd | [Hd | [Hd | [Hd | []]]]].
    + specialize (Heasy Hd). subst.
      destruct (45 <=? _) eqn:H45; [done|]. apply Nat.leb_gt in H45. lia.
    + specialize (Hmedium Hd). subst.
      destruct (45 <=? _) eqn:H45; [apply Nat.leb_le in H45; lia|].
      destruct (35 <=? _) eqn:H35; [done|]. apply Nat.leb_gt in H35. lia.
    + specialize (Hhard Hd). subst.
      destruct (45 <=? _) eqn:H45; [apply Nat.leb_le in H45; lia|].
      destruct (35 <=? _) eqn:H35; [apply Nat.leb_le in H35; lia|].
      destruct (25 <=? _) eqn:H25; [done|]. apply Nat.leb_gt in H25. lia.
    + specialize (Hexpert Hd). subst.
      destruct (45 <=? _) eqn:H45; [apply Nat.leb_le in H45; lia|].
      destruct (35 <=? _) eqn:H35; [apply Nat.leb_le in H35; lia|].
      destruct (25 <=? _) eqn:H25; [apply Nat.leb_le in H25; lia|]. done.
  - intros Hd. specialize (Hunknown Hd). unfold estimateDifficulty.
    destruct (45 <=? _) eqn:H45; [apply Nat.leb_le in H45; lia|].
    destruct (35 <=? _) eqn:H35; [done|]. apply Nat.leb_gt in H35. lia.
Qed.

Lemma X15_witness :
  statDifficulty (getPuzzleStats (createPuzzle scenarioA "hard" rng0).1)
  = "hard".
Proof.
  apply (X15_getPuzzleStats_reports_requested_level scenarioA "hard" rng0).
  - exact wf_grid_scenarioA.
  - exact full_scenarioA.
  - unfold ownSettings. rewrite !elem_of_cons. auto.
Defined.

(** ** A fresh puzzle and its solution *)

Lemma generateCompletePuzzle_consistent rng :
  ∃ g rng',
    generateCompletePuzzle rng = Some (true, g, rng')
    ∧ wf_grid g ∧ full g ∧ consistent g.
Proof.
  unfold generateCompletePuzzle.
  destruct (fillGrid_returns SudokuGenerator.searchDepth emptyGrid rng)
    as (b & g & rng' & Hres & _ & Hdone & Hmust).
  { apply wf_grid_emptyGrid. }
  { pose proof (countEmpty_bound emptyGrid).
    unfold SudokuGenerator.searchDepth. lia. }
  assert (b = true) as -> by (apply Hmust; eexists; apply emptyGrid_completes).
  destruct (Hdone eq_refl) as (Hwf & Hfull & Hcons).
  exists g, rng'. split_and!; try done. apply Hcons, consistent_emptyGrid.
Qed.

Lemma createPuzzle_cell sol difficulty rng r c :
  cell (createPuzzle sol difficulty rng).1 r c = 0
  ∨ cell (createPuzzle sol difficulty rng).1 r c = cell sol r c.
Proof.
  unfold createPuzzle.
  destruct (targetClues difficulty rng) as [target rng1].
  destruct (shuffleArray allPositions rng1) as [positions rng2].
  cbn [fst].
  destruct (removeLoop_cell positions target (deepCopy sol, 81) r c)
    as [Hz | Heq]; [by left|].
  right. by rewrite Heq, deepCopy_id.
Qed.

Lemma createPuzzle_completes sol difficulty rng :
  wf_grid sol → full sol → consistent sol →
  wf_grid (createPuzzle sol difficulty rng).1
  ∧ consistent (createPuzzle sol difficulty rng).1
  ∧ completes (createPuzzle sol difficulty rng).1 sol.
Proof.
  intros Hwf Hfull Hcons.
  destruct (createPuzzle_exact sol difficulty rng Hwf Hfull) as [_ Hwfp].
  pose proof (createPuzzle_cell sol difficulty rng) as Hcell.
  generalize dependent (createPuzzle sol difficulty rng).1. intros p Hwfp Hcell.
  pose proof Hcons as [Hrange Hcf]. split; [done|]. split.
  - split.
    + intros r c Hr Hc. destruct (Hcell r c) as [-> | ->]; [lia|].
      by apply Hrange.
    + intros r c r' c' Hr Hc Hr' Hc' Hne Hpeer Hnz.
      destruct (Hcell r c) as [Hz | Heq]; [done|].
      destruct (Hcell r' c') as [Hz' | Heq']; [congruence|].
      rewrite Heq, Heq'. apply Hcf; try done. congruence.
  - split; [done|]. split; [done|].
    intros r c Hr Hc Hnz. by destruct (Hcell r c) as [Hz | ->].
Qed.

(** X16.  [generateFreshPuzzle] returns for every difficulty and every run of
    the random source; its solution is a full 9x9 grid without conflicts, its
    puzzle is a 9x9 grid whose clues are those of the solution, with exactly
    the drawn number of clues; and the puzzle passes on to the rest of the
    system: the solver of the engine finds a completion of it and
    [validateAndSolvePuzzle] accepts it. *)
Theorem X16_generateFreshPuzzle_pair difficulty rng :
  ∃ fresh rng',
    generateFreshPuzzle difficulty rng = Some (fresh, rng')
    ∧ wf_grid (freshSolution fresh) ∧ full (freshSolution fresh)
    ∧ consistent (freshSolution fresh)
    ∧ wf_grid (puzzle fresh)
    ∧ completes (puzzle fresh) (freshSolution fresh)
    ∧ 17 ≤ filledCells (puzzle fresh) ≤ 50
    ∧ freshDifficulty fresh = difficulty
    ∧ (∃ s, solvePuzzle (puzzle fresh) = Some (Some s)
            ∧ completes (puzzle fresh) s)
    ∧ (∃ s, Lambda.validateAndSolvePuzzle (puzzle fresh)
            = Some (Lambda.Valid s)).
Proof.
  unfold generateFreshPuzzle.
  destruct (generateCompletePuzzle_consistent rng)
    as (sol & rng1 & -> & Hwf & Hfull & Hcons).
  destruct (createPuzzle_completes sol difficulty rng1 Hwf Hfull Hcons)
    as (Hwfp & Hconsp & Hcomp).
  destruct (createPuzzle_exact sol difficulty rng1 Hwf Hfull) as [Hcount _].
  pose proof (targetClues_range difficulty rng1) as [Htarget _].
  destruct (createPuzzle sol difficulty rng1) as [puz rng2]. cbn [fst] in *.
  eexists _, rng2. split; [reflexivity|].
  cbn [freshSolution puzzle freshDifficulty]. split_and!; try done; try lia.
  - destruct (solvePuzzle_solves puz Hwfp)
      as [(s & Hs & _ & _ & _ & Hc) | [_ Hno]].
    + exists s. split; [done|]. by apply Hc.
    + exfalso. apply Hno. by exists sol.
  - rewrite (validate_well_shaped puz Hwfp (proj1 Hconsp)).
    destruct (isValidPuzzleState_conflict_free puz Hwfp) as [Hok _].
    rewrite (proj2 Hok (proj2 Hconsp)).
    destruct (solvePuzzle_solves puz Hwfp) as [(s & -> & _) | [_ Hno]];
      [by exists s|].
    exfalso. apply Hno. by exists sol.
Qed.

(** X17.  The puzzle manager serves easy puzzles only: whatever difficulty
    is asked of [getRandomPuzzle] or [getGeneratedPuzzle], the puzzle returned
    has 45..50 clues, is labelled "easy", and passes [validatePuzzle]. *)
Theorem X17_puzzle_manager_serves_easy difficulty rng :
  PuzzleManager.getRandomPuzzle difficulty rng
  = PuzzleManager.getGeneratedPuzzle difficulty rng
  ∧ ∃ fresh rng',
      PuzzleManager.getGeneratedPuzzle difficulty rng = Some (fresh, rng')
      ∧ freshDifficulty fresh = "easy"
      ∧ 45 ≤ filledCells (puzzle fresh) ≤ 50
      ∧ PuzzleManager.validatePuzzle (puzzle fresh) = true.
Proof.
  unfold PuzzleManager.getRandomPuzzle, PuzzleManager.getGeneratedPuzzle.
  split; [reflexivity|]. unfold generateFreshPuzzle.
  destruct (generateCompletePuzzle_consistent rng)
    as (sol & rng1 & -> & Hwf & Hfull & Hcons).
  destruct (createPuzzle_exact sol "easy" rng1 Hwf Hfull) as [Hcount _].
  pose proof (targetClues_range "easy" rng1) as (_ & Heasy & _).
  specialize (Heasy eq_refl). rewrite <-Hcount in Heasy.
  destruct (createPuzzle sol "easy" rng1) as [puz rng2]. cbn [fst] in *.
  eexists _, rng2. split; [reflexivity|].
  cbn [puzzle freshDifficulty]. split_and!; try done; try lia.
  unfold PuzzleManager.validatePuzzle. apply Nat.leb_le.
  change (45 ≤ filledCells puz). lia.
Qed.

(** * Further properties of pencil marks, hints and progress *)

(** X18.  [togglePencilMark(row, col, num)] on a cell of the grid: a mark
    that is present is removed and [false] returned; a mark that is absent is
    added to an empty cell and [true] returned; on a filled cell the call
    still returns [true] but changes nothing; no other digit and no other
    cell is affected; and toggling the same mark twice on an empty cell
    restores every pencil-mark set. *)
Theorem X18_togglePencilMark_flips e row col num :
  wf_marks e → row < 9 → col < 9 →
  (togglePencilMark e row col num).1
  = negb (bool_decide (num ∈ marks e row col))
  ∧ (num ∈ marks e row col →
     marks (togglePencilMark e row col num).2 row col
     = marks e row col ∖ {[num]})
  ∧ (num ∉ marks e row col → cell (grid e) row col = 0 →
     marks (togglePencilMark e row col num).2 row col
     = marks e row col ∪ {[num]})
  ∧ (num ∉ marks e row col → cell (grid e) row col ≠ 0 →
     (togglePencilMark e row col num).2 = e)
  ∧ (∀ r c, (r, c) ≠ (row, col) →
            marks (togglePencilMark e row col num).2 r c = marks e r c)
  ∧ (cell (grid e) row col = 0 →
     ∀ r c, marks (togglePencilMark
                     (togglePencilMark e row col num).2 row col num).2 r c
            = marks e r c).
Proof.
  intros Hwf Hrow Hcol.
  assert (∀ e1 X r c, wf_marks e1 →
            marks (with_marks e1 (set2 (pencilMarks e1) row col X)) r c
            = if decide ((r, c) = (row, col)) then X else marks e1 r c)
    as Hset.
  { intros e1 X r c Hwf1. unfold marks. cbn [pencilMarks with_marks].
    case_decide as Heq.
    - injection Heq as -> ->. by apply at2_set2_wf.
    - by apply at2_set2_ne. }
  assert (∀ e1, wf_marks e1 →
            ∀ r c, marks (togglePencilMark e1 row col num).2 r c
                   = if decide ((r, c) = (row, col))
                     then if decide (num ∈ marks e1 row col)
                          then marks e1 row col ∖ {[num]}
                          else if cell (grid e1) row col =? 0
                               then marks e1 row col ∪ {[num]}
                               else marks e1 row col
                     else marks e1 r c) as Htoggle.
  { intros e1 Hwf1 r c. unfold togglePencilMark, addPencilMark, removePencilMark.
    destruct (decide (num ∈ marks e1 row col)); cbn [snd].
    - apply Hset, Hwf1.
    - destruct (cell (grid e1) row col =? 0); cbn [snd].
      + apply Hset, Hwf1.
      + case_decide as Heq; [by injection Heq as -> ->|done]. }
  assert (wf_marks (togglePencilMark e row col num).2) as Hwf'.
  { unfold togglePencilMark, addPencilMark, removePencilMark.
    case_decide; cbn [snd]; [by apply wf2_set2|].
    destruct (cell (grid e) row col =? 0); cbn [snd]; [by apply wf2_set2|done]. }
  split_and!.
  - unfold togglePencilMark. by case_decide; [rewrite bool_decide_eq_true_2
                                             |rewrite bool_decide_eq_false_2].
  - intros Hin. rewrite Htoggle, !decide_True by done. done.
  - intros Hout Hz%Nat.eqb_eq.
    rewrite Htoggle, decide_True, decide_False, Hz by done. done.
  - intros Hout Hnz%Nat.eqb_neq. unfold togglePencilMark, addPencilMark.
    by rewrite decide_False, Hnz.
  - intros r c Hne. by rewrite Htoggle, decide_False.
  - intros Hz%Nat.eqb_eq r c. rewrite Htoggle by done.
    destruct (togglePencilMark_fields e row col num) as (Hg & _ & _).
    rewrite Hg, Hz.
    destruct (decide ((r, c) = (row, col))) as [[= -> ->]|Hne];
      [|by rewrite Htoggle, decide_False].
    rewrite !(Htoggle e Hwf row col).
    rewrite !(decide_True (P := (row, col) = (row, col))) by done.
    rewrite Hz.
    generalize (marks e row col). intros X. clear.
    destruct (decide (num ∈ X)) as [Hin|Hout].
    + rewrite decide_False by set_solver.
      apply set_eq. intros x. destruct (decide (x = num)); set_solver.
    + rewrite decide_True by set_solver. set_solver.
Qed.

Lemma X18_witness :
  marks (togglePencilMark sessionB 8 8 4).2 8 8 = marks sessionB 8 8 ∪ {[4]}.
Proof.
  refine (proj1 (proj2 (proj2 (X18_togglePencilMark_flips sessionB 8 8 4
                                 _ _ _))) _ _).
  - split; [reflexivity|]. cbn. repeat constructor.
  - lia.
  - lia.
  - vm_compute. discriminate.
  - reflexivity.
Defined.

Lemma find_none_intro {A} (f : A → bool) (l : list A) :
  (∀ x, x ∈ l → f x = false) → find f l = None.
Proof.
  induction l as [|x l IH]; intros Hall; [done|]. cbn [find].
  rewrite (Hall x) by apply list_elem_of_here.
  apply IH. intros y Hy. apply Hall. by apply list_elem_of_further.
Qed.

(** X19.  When the grid has an empty cell and no empty cell has exactly one
    possible value, [getHint] reads the random source once: with a stored
    solution it returns an empty cell of the grid with the value the solution
    has there, reason "Random hint"; with [null] stored as the solution (an
    [init] on an unsolvable puzzle) it throws a TypeError. *)
Theorem X19_getHint_fallback e rng :
  (∃ r c, r < 9 ∧ c < 9 ∧ cell (grid e) r c = 0) →
  (∀ r c, r < 9 → c < 9 → cell (grid e) r c = 0 →
          length (getPossibleValues e r c) ≠ 1) →
  cursor (getHint e rng).2 = S (cursor rng)
  ∧ match solution e with
    | Some sol =>
        ∃ h, (getHint e rng).1 = Return (Some h)
             ∧ reason h = "Random hint"
             ∧ hrow h < 9 ∧ hcol h < 9
             ∧ cell (grid e) (hrow h) (hcol h) = 0
             ∧ value h = cell sol (hrow h) (hcol h)
    | None => (getHint e rng).1 = TypeError
    end.
Proof.
  intros (r0 & c0 & Hr0 & Hc0 & Hz0) Hnone. unfold getHint.
  fold (emptyCells e).
  assert (length (emptyCells e) ≠ 0) as Hlen.
  { rewrite emptyCells_none. intros Hfull. by apply (Hfull r0 c0). }
  apply Nat.eqb_neq in Hlen as Hlenb. rewrite Hlenb.
  rewrite find_none_intro.
  2:{ intros [r c] [Hz [Hr Hc]%elem_of_allPositions]%list_elem_of_filter.
      cbn [fst snd] in *. apply Nat.eqb_neq. by apply Hnone. }
  unfold randomBelow.
  set (k := oracle rng (cursor rng) `mod` length (emptyCells e)).
  assert (k < length (emptyCells e)) as Hk by by apply Nat.mod_upper_bound.
  assert (emptyCells e !!! k ∈ emptyCells e) as Hin
    by by apply list_elem_of_lookup_total_2.
  destruct (emptyCells e !!! k) as [r c].
  apply list_elem_of_filter in Hin as [Hz [Hr Hc]%elem_of_allPositions].
  cbn [fst snd] in *.
  destruct (solution e) as [sol|]; cbn [fst snd cursor]; [|done].
  split; [done|]. eexists. split; [reflexivity|]. by cbn.
Qed.

Lemma X19_witness :
  cursor (getHint (default new (snd <$> init new deadEnd None)) rng0).2
  = S (cursor rng0)
  ∧ (getHint (default new (snd <$> init new deadEnd None)) rng0).1 = TypeError.
Proof.
  refine (X19_getHint_fallback
            (default new (snd <$> init new deadEnd None)) rng0 _ _).
  - exists 1, 0. split_and!; [lia | lia | reflexivity].
  - intros r c Hr Hc _.
    assert (Forall (λ p,
              length (getPossibleValues
                        (default new (snd <$> init new deadEnd None))
                        p.1 p.2) ≠ 1) allPositions) as Hall.
    { apply (bool_decide_unpack _). vm_compute. exact I. }
    rewrite Forall_forall in Hall.
    apply (Hall (r, c)). by apply elem_of_allPositions.
Defined.

(** X20.  Progress counts cells: in every engine the filled and the empty
    cells of the grid add up to 81; on a 9x9 grid a successful [placeNumber]
    of a non-zero value on an empty cell raises the filled count by exactly
    one, and clearing a filled cell lowers it by exactly one. *)
Theorem X20_progress_counts_commits :
  (∀ e, getProgressFilled e + length (emptyCells e) = 81)
  ∧ (∀ e row col num,
       wf_grid (grid e) → row < 9 → col < 9 →
       success (placeNumber e row col num).1 = true →
       (cell (grid e) row col = 0 → num ≠ 0 →
        getProgressFilled (placeNumber e row col num).2
        = S (getProgressFilled e))
       ∧ (cell (grid e) row col ≠ 0 → num = 0 →
          S (getProgressFilled (placeNumber e row col num).2)
          = getProgressFilled e)).
Proof.
  split.
  - intros e. apply (filled_plus_empty (grid e)).
  - intros e row col num Hwf Hrow Hcol Hok.
    destruct (placeNumber_fields e row col num Hok) as (Hg & _ & _).
    change (getProgressFilled ?x) with (filledCells (grid x)).
    rewrite Hg.
    pose proof (filled_plus_empty (grid e)).
    pose proof (filled_plus_empty (setCell (grid e) row col num)).
    split.
    + intros Hz Hnum.
      pose proof (countEmpty_setCell (grid e) row col num Hwf Hrow Hcol Hz
                    Hnum).
      lia.
    + intros Hnz ->.
      pose proof (countEmpty_clear (grid e) row col Hwf Hrow Hcol Hnz). lia.
Qed.

Lemma X20_witness :
  getProgressFilled (placeNumber sessionB 8 8 9).2
  = S (getProgressFilled sessionB).
Proof.
  refine (proj1 (proj2 X20_progress_counts_commits sessionB 8 8 9
                   wf_grid_scenarioB _ _ _) _ _).
  - lia.
  - lia.
  - reflexivity.
  - reflexivity.
  - discriminate.
Defined.

(** ** Filling in the pencil marks *)

Lemma getPossibleValues_ext e1 e2 row col :
  grid e1 = grid e2 → initialGrid e1 = initialGrid e2 →
  getPossibleValues e1 row col = getPossibleValues e2 row col.
Proof.
  destruct e1 as [g1 s1 i1 pm1], e2 as [g2 s2 i2 pm2].
  cbn [grid initialGrid]. by intros -> ->.
Qed.

(** The loop [for (const num of possible) set.add(num)] at one cell. *)
Definition addAll (row col : nat) (e : Engine) (nums : list nat) : Engine :=
  foldl (λ e num,
           with_marks e
             (set2 (pencilMarks e) row col (marks e row col ∪ {[num]})))
    e nums.

Lemma addAll_spec row col nums e :
  wf_marks e → row < 9 → col < 9 →
  wf_marks (addAll row col e nums)
  ∧ grid (addAll row col e nums) = grid e
  ∧ initialGrid (addAll row col e nums) = initialGrid e
  ∧ ∀ r c, marks (addAll row col e nums) r c =
           if decide ((r, c) = (row, col))
           then marks e row col ∪ list_to_set nums else marks e r c.
Proof.
  intros Hwf Hrow Hcol. revert e Hwf.
  induction nums as [|num nums IH]; intros e Hwf.
  - split_and!; [done..|]. intros r c. case_decide as Heq; [|done].
    injection Heq as -> ->. cbn. set_solver.
  - unfold addAll in *. cbn [foldl].
    destruct (IH (with_marks e
                    (set2 (pencilMarks e) row col (marks e row col ∪ {[num]}))))
      as (Hwf' & Hg & Hi & Hm).
    { by apply wf2_set2. }
    split_and!; [done..|]. intros r c. rewrite Hm.
    unfold marks at 1 3. cbn [pencilMarks with_marks].
    case_decide as Heq.
    + rewrite at2_set2_wf by done. fold (marks e row col).
      cbn [list_to_set]. set_solver.
    + by rewrite at2_set2_ne.
Qed.

Lemma autoFillCell_spec e row col :
  wf_marks e → row < 9 → col < 9 →
  wf_marks (autoFillCell e (row, col))
  ∧ grid (autoFillCell e (row, col)) = grid e
  ∧ initialGrid (autoFillCell e (row, col)) = initialGrid e
  ∧ ∀ r c, marks (autoFillCell e (row, col)) r c =
           if decide ((r, c) = (row, col) ∧ cell (grid e) row col = 0)
           then list_to_set (getPossibleValues e row col) else marks e r c.
Proof.
  intros Hwf Hrow Hcol. unfold autoFillCell.
  destruct (cell (grid e) row col =? 0) eqn:Hz.
  2:{ apply Nat.eqb_neq in Hz. split_and!; [done..|]. intros r c.
      rewrite decide_False; [done|]. by intros [_ ?]. }
  apply Nat.eqb_eq in Hz.
  rewrite (getPossibleValues_ext (clearPencilMarksForCell e row col) e)
    by done.
  fold (addAll row col (clearPencilMarksForCell e row col)
          (getPossibleValues e row col)).
  destruct (addAll_spec row col (getPossibleValues e row col)
              (clearPencilMarksForCell e row col))
    as (Hwf' & Hg & Hi & Hm); [by apply wf2_set2 | done..|].
  split_and!; [done..|]. intros r c.
  rewrite Hm, !marks_clearPencilMarksForCell by done.
  rewrite (decide_True (P := (row, col) = (row, col))) by done.
  destruct (decide ((r, c) = (row, col))) as [Heq|Hne].
  - rewrite decide_True by done. set_solver.
  - rewrite decide_False; [done|]. by intros [? _].
Qed.

Lemma autoFill_spec ps e :
  wf_marks e → (∀ p, p ∈ ps → p.1 < 9 ∧ p.2 < 9) →
  wf_marks (foldl autoFillCell e ps)
  ∧ grid (foldl autoFillCell e ps) = grid e
  ∧ initialGrid (foldl autoFillCell e ps) = initialGrid e
  ∧ ∀ r c, marks (foldl autoFillCell e ps) r c =
           if decide ((r, c) ∈ ps ∧ cell (grid e) r c = 0)
           then list_to_set (getPossibleValues e r c) else marks e r c.
Proof.
  revert e. induction ps as [|[pr pc] ps IH]; intros e Hwf Hrange.
  - split_and!; [done..|]. intros r c. rewrite decide_False; [done|].
    intros [Hin _]. by apply elem_of_nil in Hin.
  - destruct (Hrange (pr, pc)) as [Hpr Hpc]; [apply list_elem_of_here|].
    cbn [fst snd] in *.
    destruct (autoFillCell_spec e pr pc Hwf Hpr Hpc) as (Hwf1 & Hg1 & Hi1 & Hm1).
    destruct (IH (autoFillCell e (pr, pc)) Hwf1) as (Hwf' & Hg & Hi & Hm).
    { intros p Hp. apply Hrange. by apply list_elem_of_further. }
    cbn [foldl]. split_and!; [done | congruence | congruence |].
    intros r c. rewrite Hm, Hm1, Hg1.
    rewrite (getPossibleValues_ext (autoFillCell e (pr, pc)) e) by done.
    destruct (decide ((r, c) ∈ ps ∧ cell (grid e) r c = 0)) as [[Hin Hz]|Hno].
    + rewrite decide_True; [done|]. split; [by apply list_elem_of_further|done].
    + destruct (decide ((r, c) = (pr, pc) ∧ cell (grid e) pr pc = 0))
        as [[Heq Hz]|Hno2].
      * injection Heq as -> ->. rewrite decide_True; [done|].
        split; [apply list_elem_of_here|done].
      * rewrite decide_False; [done|].
        intros [[Heq|Hin]%elem_of_cons Hz].
        -- apply Hno2. split; [done|]. by injection Heq as -> ->.
        -- by apply Hno.
Qed.

(** X21.  [autoFillPencilMarks()] leaves the grid alone; afterwards the
    pencil marks of every empty cell are exactly its [getPossibleValues]
    (marks that were there before are dropped), and the pencil marks of every
    filled cell are what they were. *)
Theorem X21_autoFillPencilMarks_exact e :
  wf_marks e →
  grid (autoFillPencilMarks e) = grid e
  ∧ initialGrid (autoFillPencilMarks e) = initialGrid e
  ∧ (∀ r c, r < 9 → c < 9 → cell (grid e) r c = 0 →
            ∀ v, v ∈ marks (autoFillPencilMarks e) r c ↔
                 v ∈ getPossibleValues e r c)
  ∧ (∀ r c, cell (grid e) r c ≠ 0 →
            marks (autoFillPencilMarks e) r c = marks e r c).
Proof.
  intros Hwf. unfold autoFillPencilMarks.
  destruct (autoFill_spec allPositions e Hwf) as (_ & Hg & Hi & Hm).
  { by intros [r c] Hp%elem_of_allPositions. }
  split_and!; [done..| |].
  - intros r c Hr Hc Hz v. rewrite Hm, decide_True.
    + by rewrite elem_of_list_to_set.
    + split; [by apply elem_of_allPositions|done].
  - intros r c Hnz. rewrite Hm, decide_False; [done|]. by intros [_ ?].
Qed.

Lemma X21_witness : 9 ∈ marks (autoFillPencilMarks sessionB) 8 8.
Proof.
  apply (proj1 (proj2 (proj2 (X21_autoFillPencilMarks_exact sessionB
                                wf_marks_sessionB)))).
  - lia.
  - lia.
  - reflexivity.
  - apply list_elem_of_In. vm_compute. by left.
Defined.

(** ** Reading the pencil marks *)

#[local] Instance decimalLe_total : Total decimalLe.
Proof. intros a b. apply String.leb_total. Qed.

Lemma decimalLe_digits a b : a < 10 → b < 10 → decimalLe a b → a ≤ b.
Proof.
  intros Ha Hb.
  assert (Forall (λ a, Forall (λ b, decimalLe a b → a ≤ b) (seq 0 10))
            (seq 0 10)) as Hall.
  { apply (bool_decide_unpack _). vm_compute. exact I. }
  rewrite Forall_forall in Hall.
  specialize (Hall a ltac:(apply elem_of_seq; lia)).
  rewrite Forall_forall in Hall.
  apply (Hall b). apply elem_of_seq. lia.
Qed.

Lemma Sorted_decimal_digits (l : list nat) :
  Sorted decimalLe l → NoDup l → Forall (λ v, v < 10) l → Sorted lt l.
Proof.
  induction 1 as [|x l Hsorted IH Hhd]; intros Hnd Hdigits; [constructor|].
  apply NoDup_cons in Hnd as [Hfresh Hnd].
  apply Forall_cons in Hdigits as [Hx Hdigits].
  constructor; [by apply IH|].
  destruct Hhd as [|y l Hxy]; constructor.
  apply Forall_cons in Hdigits as [Hy _].
  pose proof (decimalLe_digits x y Hx Hy Hxy).
  assert (x ≠ y) by (intros ->; apply Hfresh, list_elem_of_here). lia.
Qed.

(** X22.  [getPencilMarks(row, col)] returns the marks of the cell, each
    once.  The default sort compares decimal strings: marks below 10 (the
    digits the game uses) come out in ascending order, while 10 is placed
    before 9. *)
Theorem X22_getPencilMarks_sorted e row col :
  (∀ v, v ∈ getPencilMarks e row col ↔ v ∈ marks e row col)
  ∧ NoDup (getPencilMarks e row col)
  ∧ ((∀ v, v ∈ marks e row col → v < 10) →
     StronglySorted lt (getPencilMarks e row col))
  ∧ getPencilMarks
      (with_marks sessionB (set2 (pencilMarks sessionB) 8 8 {[9; 10]})) 8 8
    = [10; 9].
Proof.
  unfold getPencilMarks.
  pose proof (merge_sort_Permutation decimalLe (elements (marks e row col)))
    as Hperm.
  split_and!.
  - intros v. by rewrite Hperm, elem_of_elements.
  - rewrite Hperm. apply NoDup_elements.
  - intros Hdigits. apply Sorted_StronglySorted; [apply _|].
    apply Sorted_decimal_digits.
    + apply Sorted_merge_sort, _.
    + rewrite Hperm. apply NoDup_elements.
    + rewrite Hperm. apply Forall_forall. intros v Hv%elem_of_elements.
      by apply Hdigits.
  - vm_compute. reflexivity.
Qed.

Lemma X22_witness :
  StronglySorted lt
    (getPencilMarks (togglePencilMark sessionB 8 8 4).2 8 8).
Proof.
  apply (proj1 (proj2 (proj2 (X22_getPencilMarks_sorted
                                (togglePencilMark sessionB 8 8 4).2 8 8)))).
  intros v Hv.
  assert (marks (togglePencilMark sessionB 8 8 4).2 8 8 = {[4]}) as Hm
    by (vm_compute; reflexivity).
  rewrite Hm in Hv. apply elem_of_singleton in Hv. lia.
Defined.

(** ** The generator's search on any grid *)

(** X23.  [isValidPlacement(grid, row, col, num)] of the generator, on an
    in-range cell, is true exactly when no cell of the row, of the column or
    of the 3x3 box holds [num], the cell [(row, col)] itself included. *)
Theorem X23_isValidPlacement_exact g row col num :
  row < 9 → col < 9 →
  isValidPlacement g row col num = true ↔
  ∀ r c, r < 9 → c < 9 → peer row col r c → cell g r c ≠ num.
Proof. apply isValidPlacement_true. Qed.

Lemma X23_witness : isValidPlacement scenarioB 8 8 9 = true.
Proof.
  apply (X23_isValidPlacement_exact scenarioB 8 8 9); [lia | lia |].
  intros r c Hr Hc Hpeer.
  assert (Forall (λ p, peer 8 8 p.1 p.2 → cell scenarioB p.1 p.2 ≠ 9)
            allPositions) as Hall.
  { apply (bool_decide_unpack _). vm_compute. exact I. }
  rewrite Forall_forall in Hall.
  apply (Hall (r, c)); [by apply elem_of_allPositions | done].
Defined.

(** X24.  [fillGrid] on any 9x9 grid, for every run of the random source:
    the search returns within its depth of 82; when it reports failure the
    grid is exactly as it was given and the grid has no completion; when it
    reports success the grid is full and, if it had values up to 9 and no
    conflict to begin with, has no conflict. *)
Theorem X24_fillGrid_search g rng :
  wf_grid g →
  ∃ b g' rng',
    fillGrid SudokuGenerator.searchDepth g rng = Some (b, g', rng')
    ∧ (b = false → g' = g ∧ ¬ ∃ s, completes g s)
    ∧ (b = true → wf_grid g' ∧ full g' ∧ (consistent g → consistent g')).
Proof.
  intros Hwf.
  destruct (fillGrid_returns SudokuGenerator.searchDepth g rng Hwf)
    as (b & g' & rng' & Hres & Hfail & Hdone & Hmust).
  { pose proof (countEmpty_bound g). unfold SudokuGenerator.searchDepth. lia. }
  exists b, g', rng'. split_and!; [done | | done].
  intros ->. split; [by apply Hfail|]. intros Hs. by specialize (Hmust Hs).
Qed.

Lemma X24_witness :
  ∃ b g' rng',
    fillGrid SudokuGenerator.searchDepth deadEnd rng0 = Some (b, g', rng')
    ∧ (b = false → g' = deadEnd ∧ ¬ ∃ s, completes deadEnd s)
    ∧ (b = true →
       wf_grid g' ∧ full g' ∧ (consistent deadEnd → consistent g')).
Proof. apply X24_fillGrid_search. exact wf_grid_deadEnd. Defined.

(** ** Statistics *)

Lemma filter_split_length {A} (P Q : A → Prop)
    `{!∀ x, Decision (P x)} `{!∀ x, Decision (Q x)} (l : list A) :
  length (filter P l)
  = length (filter (λ x, P x ∧ Q x) l) + length (filter (λ x, P x ∧ ¬ Q x) l).
Proof.
  induction l as [|x l IH]; [done|]. rewrite !filter_cons.
  destruct (decide (P x)), (decide (Q x)), (decide (P x ∧ Q x)),
    (decide (P x ∧ ¬ Q x)); try tauto; cbn [length]; lia.
Qed.

(** X25.  [getStats()] leaves the engine as it was, and its counts are
    consistent: filled and empty cells add up to 81, and in every state
    reached from [init] the filled cells are the clues of the puzzle plus the
    cells entered by the player. *)
Theorem X25_getStats_counts e :
  reachable e →
  (getStats e).2 = e
  ∧ progressFilled (getStats e).1 + SudokuEngine.statEmptyCells (getStats e).1 = 81
  ∧ progressFilled (getStats e).1
    = length (filter (λ p, isGivenCell e p.1 p.2 = true) allPositions)
      + userMoves (getStats e).1.
Proof.
  intros Hreach. unfold getStats, isValidSolution.
  pose proof (revalidateFrom_restores allPositions e) as Hsame.
  destruct (revalidateFrom allPositions e) as [valid e']. cbn [snd] in Hsame.
  subst e'. cbn [fst snd progressFilled SudokuEngine.statEmptyCells userMoves].
  split; [done|]. split.
  - apply (filled_plus_empty (grid e)).
  - unfold getProgressFilled.
    rewrite (filter_split_length _ (λ p, isGivenCell e p.1 p.2 = true)).
    f_equal.
    + f_equal. apply filter_agree. intros [r c] _. cbn [fst snd].
      unfold isGivenCell. rewrite negb_true_iff, Nat.eqb_neq. split; [tauto|].
      intros Hgiven. split; [|done].
      by rewrite reachable_givens_kept.
    + f_equal. apply filter_agree. intros [r c] _. cbn [fst snd].
      by rewrite not_true_iff_false.
Qed.

Lemma X25_witness :
  progressFilled
    (getStats (placeNumber (togglePencilMark sessionB 8 8 4).2 8 8 9).2).1
  + SudokuEngine.statEmptyCells
      (getStats (placeNumber (togglePencilMark sessionB 8 8 4).2 8 8 9).2).1
  = 81.
Proof.
  apply (X25_getStats_counts _ reachable_sessionB_move).
Defined.
